(** * Piano roll renderer of the Arduino pitch detector (pianoroll.cpp)

    A shallow embedding of [arduino-pitch_detector/pianoroll.cpp]: the
    geometry functions [_resize], [_time2x], [_pitch2y], the grid renderer
    [_displayRoll] and the entry points [PianoRoll::show], [clear] and
    [begin].

    The program is C++ for the Arduino UNO R3 (avr-gcc: [int] is 16 bits).
    All its quantities are values of fixed-width integer types, so every
    expression is evaluated with C's integer promotions, usual arithmetic
    conversions and wrap-around on conversion (module [C]).  The file-scope
    variables are a record that the functions pass along; calls to the TFT
    driver are collected, in program order, as a list of commands; the two
    loops take fuel, and the theorems say how much is enough.

    The types behind the typedefs and the configured constants are declared
    in headers that are not at hand: they are parameters ([headers]), and
    the theorems hold for every choice of them that meets the stated
    conditions.  [uno] is one choice, used to evaluate the program. *)

From Stdlib Require Import ZArith Lia List Bool.
Import ListNotations.
Local Open Scope Z_scope.

(** ** C integer arithmetic on the target *)

Module C.

Inductive size := W8 | W16 | W32 | W64.

(** An integer type: its width and its signedness. *)
Record ity := Ity { width : size; signed : bool }.

Definition bits (t : ity) : Z :=
  match width t with W8 => 8 | W16 => 16 | W32 => 32 | W64 => 64 end.

Definition min_val (t : ity) : Z :=
  if signed t then - 2 ^ (bits t - 1) else 0.

Definition max_val (t : ity) : Z :=
  if signed t then 2 ^ (bits t - 1) - 1 else 2 ^ bits t - 1.

Definition in_range (t : ity) (z : Z) : Prop := min_val t <= z <= max_val t.

Definition in_rangeb (t : ity) (z : Z) : bool :=
  (min_val t <=? z) && (z <=? max_val t).

(** Conversion of an integer to type [t]: modulo 2^bits, into the type's
    range (for a signed target this is what avr-gcc does). *)
Definition wrap (t : ity) (z : Z) : Z :=
  if signed t
  then (z + 2 ^ (bits t - 1)) mod 2 ^ bits t - 2 ^ (bits t - 1)
  else z mod 2 ^ bits t.

Definition uint8 := Ity W8 false.
Definition uint16 := Ity W16 false.
Definition uint32 := Ity W32 false.
Definition int := Ity W16 true.

(** Integer promotion: a type narrower than [int] is promoted to [int]. *)
Definition promote (t : ity) : ity :=
  match width t with W8 => int | _ => t end.

(** Usual arithmetic conversions: the common type of a binary operator. *)
Definition usual (a b : ity) : ity :=
  let a' := promote a in
  let b' := promote b in
  match bits a' ?= bits b' with
  | Lt => b'
  | Gt => a'
  | Eq => Ity (width a') (signed a' && signed b')
  end.

(** A value together with the static type of the expression it comes from. *)
Record val := V { ty : ity; num : Z }.

(** An [int] literal. *)
Definition lit (z : Z) : val := V int z.

(** [conv t v]: the value of [v] converted to [t]; [cast] keeps the type. *)
Definition conv (t : ity) (v : val) : Z := wrap t (num v).
Definition cast (t : ity) (v : val) : val := V t (conv t v).

(** A binary operator: both operands are converted to the common type, and
    the result is of that type.  (An overflow of a signed operation is
    undefined in C; here it wraps, and the theorems keep results in range.) *)
Definition arith (f : Z -> Z -> Z) (a b : val) : val :=
  let t := usual (ty a) (ty b) in
  V t (wrap t (f (conv t a) (conv t b))).

Definition add := arith Z.add.
Definition sub := arith Z.sub.
Definition mul := arith Z.mul.
(** [/] and [%] truncate towards zero.  Division by zero is undefined in
    C; here it yields [Z.quot]'s 0, and the theorems that depend on a
    quotient assume a non-zero divisor. *)
Definition div := arith Z.quot.
Definition rem := arith Z.rem.

Definition lt (a b : val) : bool :=
  let t := usual (ty a) (ty b) in conv t a <? conv t b.
Definition gt (a b : val) : bool := lt b a.
Definition le (a b : val) : bool := negb (lt b a).
Definition eq (a b : val) : bool :=
  let t := usual (ty a) (ty b) in conv t a =? conv t b.

(** The conditional operator [c ? a : b] on arithmetic operands. *)
Definition cond (c : bool) (a b : val) : val :=
  let t := usual (ty a) (ty b) in
  if c then cast t a else cast t b.

(** Arduino.h: [#define min(a,b) ((a)<(b)?(a):(b))]. *)
Definition min (a b : val) : val := cond (lt a b) a b.

End C.

(** ** Declarations of the headers the file includes

    [coordinate_t.h], [segmentbuf.h], [sample_t.h], [pitch.h] and [config.h]
    are not part of the sources under study.  What [pianoroll.cpp] takes from
    them is collected here as parameters of the model: the integer types
    behind the typedefs, and the constants it reads. *)

Record headers := Headers {
  xCoordinate_t : C.ity;
  yCoordinate_t : C.ity;
  segmentPitch_t : C.ity;
  segmentRelTime_t : C.ity;
  absoluteTime_t : C.ity;
  octaveNr_t : C.ity;
  (** the values of [Pitch::freq2pitch( Config::FREQ_MIN )] and
      [Pitch::freq2pitch( Config::FREQ_MAX )] *)
  pitch_of_FREQ_MIN : Z;
  pitch_of_FREQ_MAX : Z;
  (** [Config::MIN_SEGMENT_DURATION], with its declared type *)
  MIN_SEGMENT_DURATION : C.val;
  (** the enumerators [noteNr_t::C] and [noteNr_t::G] *)
  noteNr_C : Z;
  noteNr_G : Z
}.

(** A note segment ([segment_t]): [pitch] is a [segmentPitch_t], [duration]
    and [onset] are [segmentRelTime_t]. *)
Record segment_t := Segment { pitch : Z; duration : Z; onset : Z }.

(** ** Calls to the TFT driver (Adafruit_ST7735), with their arguments *)

Inductive cmd :=
| fillRect (x y w h color : Z)
| fillScreen (color : Z)
| drawFastVLine (x y h color : Z)
| drawFastHLine (x y w color : Z)
| drawChar (x y c color bg size : Z).

Definition COLOR_NOTESTART : Z := 0xF800.
Definition COLOR_NOTE : Z := 0x0700.
Definition COLOR_CURSOR : Z := 0x001F.
Definition COLOR_ROLLC : Z := 0x2104.
Definition COLOR_ROLLG : Z := 0xC618.
Definition COLOR_ROLLOTHER : Z := 0xF79E.
Definition COLOR_BG : Z := 0xFFFF.

(** ** The file-scope variables *)

Record _display_t := Display { width : Z; height : Z }.
Record _distance_t := Distance { pitch2pitch : Z; bottom2loPitch : Z }.

Record state := State {
  _display : _display_t;
  _distance : _distance_t;
  _msecPerPixel : Z;
  _msecOnScreen : Z;
  _msecStart : Z
}.

Section Program.

Variable hdr : headers.

Local Abbreviation xT := (xCoordinate_t hdr).
Local Abbreviation yT := (yCoordinate_t hdr).
Local Abbreviation pT := (segmentPitch_t hdr).
Local Abbreviation rT := (segmentRelTime_t hdr).
Local Abbreviation aT := (absoluteTime_t hdr).

Definition CHAR_WIDTH : Z := C.conv xT (C.lit 6).
Definition CHAR_HEIGHT : Z := C.conv yT (C.lit 8).

Definition X_FIRSTNOTE : Z := C.conv xT (C.mul (C.lit 2) (C.V xT CHAR_WIDTH)).

Definition PITCH_MIN : Z := C.wrap pT (pitch_of_FREQ_MIN hdr).
Definition PITCH_MAX : Z := C.wrap pT (pitch_of_FREQ_MAX hdr).

(** The two locals of [_resize] that it divides by: [nrOfPos], the number
    of pitch rows, and [sWidth], the screen width in pixels right of the
    note names. *)
Definition resize_nrOfPos : Z :=
  C.conv pT (C.add (C.sub (C.V pT PITCH_MAX) (C.V pT PITCH_MIN)) (C.lit 1)).

Definition resize_sWidth (width : Z) : Z :=
  C.conv xT (C.sub (C.V C.int (C.wrap C.int width)) (C.V xT X_FIRSTNOTE)).

(** [_resize( int width, int height )] *)
Definition _resize (s : state) (width height : Z) : state :=
  let w := C.V C.int (C.wrap C.int width) in
  let h := C.V C.int (C.wrap C.int height) in
  let d_height := C.conv yT h in
  let d_width := C.conv xT w in
  let nrOfPos := resize_nrOfPos in
  let p2p := C.conv yT (C.div h (C.V pT nrOfPos)) in
  let b2l :=
    C.conv yT (C.div (C.sub h (C.mul (C.V pT nrOfPos) (C.V yT p2p))) (C.lit 2)) in
  let sWidth := resize_sWidth width in
  let onScreen := C.conv rT (C.lit 2912) in
  let perPixel := C.conv rT (C.div (C.V rT onScreen) (C.V xT sWidth)) in
  {| _display := {| width := d_width; height := d_height |};
     _distance := {| pitch2pitch := p2p; bottom2loPitch := b2l |};
     _msecPerPixel := perPixel;
     _msecOnScreen := onScreen;
     _msecStart := _msecStart s |}.

(** [_time2x( t, t0 )]: x-coordinate of note time [t], [t0] being the time
    on the left of the screen. *)
Definition _time2x (s : state) (t t0 : Z) : Z :=
  let since := C.sub (C.V aT t) (C.V aT (_msecStart s)) in
  let distance :=
    C.conv xT
      (C.cond (C.gt since (C.V aT t0))
              (C.div (C.sub since (C.V aT t0)) (C.V rT (_msecPerPixel s)))
              (C.lit 0)) in
  C.conv xT (C.add (C.V xT X_FIRSTNOTE) (C.V xT distance)).

(** [_pitch2y( pitch )]: y-coordinate of a midi pitch. *)
Definition _pitch2y (s : state) (pitch : Z) : Z :=
  let diff :=
    C.conv yT (C.mul (C.sub (C.V pT pitch) (C.V pT PITCH_MIN))
                     (C.V yT (pitch2pitch (_distance s)))) in
  C.conv yT (C.sub (C.sub (C.V yT (height (_display s)))
                          (C.V yT (bottom2loPitch (_distance s))))
                   (C.V yT diff)).

(** One iteration of the [for] loop of [_displayRoll], for pitch [ii]. *)
Definition _displayRoll_row (s : state) (xLeft xRight ii : Z) : list cmd :=
  let nr := C.num (C.rem (C.V pT ii) (C.lit 12)) in
  let isC := nr =? noteNr_C hdr in
  let isG := nr =? noteNr_G hdr in
  let color :=
    if isC then COLOR_ROLLC else if isG then COLOR_ROLLG else COLOR_ROLLOTHER in
  let y := _pitch2y s ii in
  let lineLen := C.num (C.sub (C.V xT xRight) (C.V xT xLeft)) in
  if C.eq (C.V xT xLeft) (C.lit 0) then
    let labels :=
      if isC || isG then
        let octave := C.conv (octaveNr_t hdr) (C.div (C.V pT ii) (C.lit 12)) in
        let cY :=
          C.conv yT (C.add (C.sub (C.V yT y)
                                  (C.div (C.V yT CHAR_HEIGHT) (C.lit 2)))
                           (C.lit 1)) in
        [ drawChar 0 cY (if isC then 67 else 71) color color 1;
          drawChar CHAR_WIDTH cY
                   (C.conv C.uint8 (C.add (C.lit 48) (C.V (octaveNr_t hdr) octave)))
                   color color 1 ]
      else [] in
    labels ++ [ drawFastHLine X_FIRSTNOTE y lineLen color ]
  else
    [ drawFastHLine xLeft y lineLen color ].

(** The [for] loop: [ii] runs from its current value while
    [ii <= PITCH_MAX], with [ii++] in [segmentPitch_t]. *)
Fixpoint _displayRoll_loop (fuel : nat) (s : state) (xLeft xRight ii : Z)
  : option (list cmd) :=
  match fuel with
  | O => None
  | S fuel' =>
      if C.le (C.V pT ii) (C.V pT PITCH_MAX) then
        match _displayRoll_loop fuel' s xLeft xRight
                (C.conv pT (C.add (C.V pT ii) (C.lit 1))) with
        | Some rest => Some (_displayRoll_row s xLeft xRight ii ++ rest)
        | None => None
        end
      else Some []
  end.

(** [_displayRoll( xLeft, xWidth )] *)
Definition _displayRoll (fuel : nat) (s : state) (xLeft xWidth : Z)
  : option (list cmd) :=
  let xRight := C.conv xT (C.add (C.V xT xLeft) (C.V xT xWidth)) in
  _displayRoll_loop fuel s xLeft xRight PITCH_MIN.

(** *** [PianoRoll::show] *)

(** [n], the number of times the cursor wrapped around, and [t0]. *)
Definition show_t0 (s : state) (now : Z) : Z :=
  let n :=
    C.conv aT (C.div (C.sub (C.V aT now) (C.V aT (_msecStart s)))
                     (C.V rT (_msecOnScreen s))) in
  C.conv aT (C.mul (C.V aT n) (C.V rT (_msecOnScreen s))).

Definition show_cursor (s : state) (now : Z) : Z :=
  _time2x s now (show_t0 s now).

Definition startLen : Z := 2.

Definition show_wipe (s : state) (cursor : Z) : Z :=
  C.conv xT
    (C.min (C.div (C.V xT (width (_display s))) (C.lit 20))
           (C.sub (C.V xT (width (_display s))) (C.V xT cursor))).

Definition maxLoopTime : Z := C.conv aT (C.lit 60).

Definition show_drawInMsec (s : state) (cursor : Z) : Z :=
  C.conv aT
    (C.min (C.add (MIN_SEGMENT_DURATION hdr) (C.V aT maxLoopTime))
           (C.mul (C.sub (C.V xT cursor) (C.V xT X_FIRSTNOTE))
                  (C.V rT (_msecPerPixel s)))).

(** [(xCoordinate_t)drawInMsec / _msecPerPixel]: the cast binds to
    [drawInMsec], the quotient is then converted on initialisation. *)
Definition show_drawInPixels (s : state) (drawInMsec : Z) : Z :=
  C.conv xT
    (C.div (C.cast xT (C.V aT drawInMsec)) (C.V rT (_msecPerPixel s))).

(** The body of the [while] loop for one note ending at [offset]: the two
    rectangles it paints, and the next [offset]. *)
Definition show_note (s : state) (t0 offset : Z) (note : segment_t)
  : list cmd * Z :=
  let onset' := C.conv aT (C.sub (C.V aT offset) (C.V rT (duration note))) in
  let xLeft := _time2x s onset' t0 in
  let xWidth := C.conv xT (C.sub (C.V xT (_time2x s offset t0)) (C.V xT xLeft)) in
  let yTop :=
    C.conv yT (C.add (C.V yT (_pitch2y s (pitch note)))
                     (C.div (C.V yT (pitch2pitch (_distance s))) (C.lit 2))) in
  let yHeight := C.conv yT (C.V yT (pitch2pitch (_distance s))) in
  ( [ fillRect (C.num (C.add (C.V xT xLeft) (C.V C.uint8 startLen))) yTop
               (C.num (C.sub (C.V xT xWidth) (C.V C.uint8 startLen))) yHeight
               COLOR_NOTE;
      fillRect xLeft yTop startLen yHeight COLOR_NOTESTART ],
    C.conv aT (C.sub (C.V aT onset') (C.V rT (onset note))) ).

(** The [while] loop.  [headPtr] is the accessor [segmentBuf->headPtr]; the
    index [ii] is a [uint_least8_t], incremented each time the accessor is
    called.  The accessor is consulted first; the offset is only compared
    when it returned a note. *)
Fixpoint show_notes (fuel : nat) (s : state) (headPtr : Z -> option segment_t)
         (now drawInMsec t0 ii offset : Z) : option (list cmd) :=
  match fuel with
  | O => None
  | S fuel' =>
      match headPtr ii with
      | None => Some []
      | Some note =>
          if C.gt (C.V aT offset) (C.sub (C.V aT now) (C.V aT drawInMsec)) then
            match show_notes fuel' s headPtr now drawInMsec t0
                    (C.conv C.uint8 (C.add (C.V C.uint8 ii) (C.lit 1)))
                    (snd (show_note s t0 offset note)) with
            | Some rest => Some (fst (show_note s t0 offset note) ++ rest)
            | None => None
            end
          else Some []
      end
  end.

(** [PianoRoll::show( lastOffset, segmentBuf )]; [millis] is what
    [millis()] returns. *)
Definition show (fuel : nat) (s : state) (millis lastOffset : Z)
           (headPtr : Z -> option segment_t) : option (list cmd) :=
  let now := C.conv aT (C.V C.uint32 millis) in
  let t0 := show_t0 s now in
  let cursor := _time2x s now t0 in
  let wipe := show_wipe s cursor in
  let drawInMsec := show_drawInMsec s cursor in
  let drawInPixels := show_drawInPixels s drawInMsec in
  let d_height := height (_display s) in
  let redrawLeft := C.sub (C.V xT cursor) (C.V xT drawInPixels) in
  match _displayRoll fuel s (C.conv xT redrawLeft) drawInPixels with
  | None => None
  | Some grid =>
      match show_notes fuel s headPtr now drawInMsec t0 0 lastOffset with
      | None => None
      | Some notes =>
          Some ([ fillRect cursor 0 wipe d_height COLOR_BG;
                  drawFastVLine (C.num (C.add (C.V xT cursor) (C.lit 1))) 0
                                d_height COLOR_CURSOR;
                  fillRect (C.num redrawLeft) 0 drawInPixels d_height COLOR_BG ]
                ++ grid ++ notes)
      end
  end.

(** [PianoRoll::clear] *)
Definition clear (fuel : nat) (s : state) (millis : Z)
  : option (list cmd * state) :=
  match _displayRoll fuel s 0 (width (_display s)) with
  | None => None
  | Some grid =>
      Some (fillScreen COLOR_BG :: grid,
            {| _display := _display s;
               _distance := _distance s;
               _msecPerPixel := _msecPerPixel s;
               _msecOnScreen := _msecOnScreen s;
               _msecStart := C.conv aT (C.V C.uint32 millis) |})
  end.

(** [PianoRoll::begin], once the driver has reported its size. *)
Definition begin (fuel : nat) (s : state) (tftWidth tftHeight millis : Z)
  : option (list cmd * state) :=
  clear fuel (_resize s tftWidth tftHeight) millis.

(** The divisions of [show] and [_time2x] are defined: [_msecOnScreen] and
    [_msecPerPixel] hold positive values of their type, as after a
    [_resize] of a screen of 13 to 2924 pixels. *)
Definition ready (s : state) : Prop :=
  0 < _msecOnScreen s /\ C.in_range rT (_msecOnScreen s) /\
  0 < _msecPerPixel s /\ C.in_range rT (_msecPerPixel s).

End Program.

(** What [show] draws before the grid and the notes: the wipe region, the
    cursor line, and the erased trailing region. *)
Definition show_prologue (hdr : headers) (s : state) (cursor : Z) : list cmd :=
  let xT := xCoordinate_t hdr in
  let drawInPixels :=
    show_drawInPixels hdr s (show_drawInMsec hdr s cursor) in
  [ fillRect cursor 0 (show_wipe hdr s cursor) (height (_display s)) COLOR_BG;
    drawFastVLine (C.num (C.add (C.V xT cursor) (C.lit 1))) 0
                  (height (_display s)) COLOR_CURSOR;
    fillRect (C.num (C.sub (C.V xT cursor) (C.V xT drawInPixels))) 0
             drawInPixels (height (_display s)) COLOR_BG ].

(** The grid that [show] redraws behind the cursor. *)
Definition show_grid (hdr : headers) (fuel : nat) (s : state) (cursor : Z)
  : option (list cmd) :=
  let xT := xCoordinate_t hdr in
  let drawInPixels :=
    show_drawInPixels hdr s (show_drawInMsec hdr s cursor) in
  _displayRoll hdr fuel s
    (C.conv xT (C.sub (C.V xT cursor) (C.V xT drawInPixels))) drawInPixels.

(** ** The segment history *)

(** Modelled from the spec: the class [SegmentBuf] (segmentbuf.cpp) is not
    among the sources.  Its accessor [segment(i)] returns the i-th most
    recent segment, or none once the history is exhausted; the history is a
    list, newest first. *)
Definition headPtr_of (history : list segment_t) (i : Z) : option segment_t :=
  if i <? 0 then None else nth_error history (Z.to_nat i).

(** The walk of the note segment renderer as the specification words it
    (section 4.4), on plain integers: a running [offset] starts at
    [lastOffset]; for each segment, newest first, [onset = offset -
    segment.duration]; the walk stops when the history is exhausted or
    [offset <= bound] (the bound being [now - drawInMsec]); it advances with
    [offset = onset - segment.onset].  Each step yields the onset, the offset
    and the pitch of one bar. *)
Fixpoint note_walk (bound offset : Z) (history : list segment_t)
  : list (Z * Z * Z) :=
  match history with
  | [] => []
  | note :: older =>
      if offset <=? bound then []
      else
        let onset' := offset - duration note in
        (onset', offset, pitch note)
          :: note_walk bound (onset' - onset note) older
  end.

(** The bar of the specification for a note from [onset'] to [offset]: the
    note body, then the two pixel wide onset marker. *)
Definition note_bar (hdr : headers) (s : state) (t0 : Z) (bar : Z * Z * Z)
  : list cmd :=
  let '(onset', offset, pitch') := bar in
  let xT := xCoordinate_t hdr in
  let yT := yCoordinate_t hdr in
  let xLeft := _time2x hdr s onset' t0 in
  let xWidth :=
    C.conv xT (C.sub (C.V xT (_time2x hdr s offset t0)) (C.V xT xLeft)) in
  let yTop :=
    C.conv yT (C.add (C.V yT (_pitch2y hdr s pitch'))
                     (C.div (C.V yT (pitch2pitch (_distance s))) (C.lit 2))) in
  let yHeight := C.conv yT (C.V yT (pitch2pitch (_distance s))) in
  [ fillRect (C.num (C.add (C.V xT xLeft) (C.V C.uint8 startLen))) yTop
             (C.num (C.sub (C.V xT xWidth) (C.V C.uint8 startLen))) yHeight
             COLOR_NOTE;
    fillRect xLeft yTop startLen yHeight COLOR_NOTESTART ].

(** The segments of [history] are well-typed and, walked back from
    [offset], none starts before time 0. *)
Fixpoint fits_before (hdr : headers) (offset : Z) (history : list segment_t)
  : Prop :=
  match history with
  | [] => True
  | note :: older =>
      0 <= duration note /\ C.in_range (segmentRelTime_t hdr) (duration note) /\
      0 <= onset note /\ C.in_range (segmentRelTime_t hdr) (onset note) /\
      duration note + onset note <= offset /\
      fits_before hdr (offset - duration note - onset note) older
  end.

(** ** The display surface *)

(** The driver is an external library; a command is read as the pixels it
    writes.  [font c] lists the foreground pixels of character [c] in its
    6x8 cell.  A write outside the [W]x[H] surface is dropped. *)

Definition surface := Z -> Z -> Z.

Definition cleared : surface := fun _ _ => COLOR_BG.

Definition span (from len : Z) : list Z :=
  map (fun i => from + Z.of_nat i) (seq 0 (Z.to_nat len)).

Definition rect (x y w h color : Z) : list (Z * Z * Z) :=
  flat_map (fun py => map (fun px => (px, py, color)) (span x w)) (span y h).

Definition writes (W H : Z) (font : Z -> list (Z * Z)) (c : cmd)
  : list (Z * Z * Z) :=
  match c with
  | fillRect x y w h color => rect x y w h color
  | fillScreen color => rect 0 0 W H color
  | drawFastVLine x y h color => rect x y 1 h color
  | drawFastHLine x y w color => rect x y w 1 color
  | drawChar x y c color bg size =>
      (if bg =? color then [] else rect x y (6 * size) (8 * size) bg)
      ++ flat_map (fun '(dx, dy) =>
                     rect (x + dx * size) (y + dy * size) size size color)
                  (font c)
  end.

Definition set_pixel (W H : Z) (f : surface) (w : Z * Z * Z) : surface :=
  let '(x, y, color) := w in
  if (0 <=? x) && (x <? W) && (0 <=? y) && (y <? H)
  then fun px py => if (px =? x) && (py =? y) then color else f px py
  else f.

Definition paint (W H : Z) (font : Z -> list (Z * Z)) (cmds : list cmd)
           (f : surface) : surface :=
  fold_left (set_pixel W H) (flat_map (writes W H font) cmds) f.

(** Whether the write [w] lands on pixel [(px, py)] of the surface. *)
Definition hits (W H : Z) (w : Z * Z * Z) (px py : Z) : bool :=
  let '(x, y, _) := w in
  (0 <=? x) && (x <? W) && (0 <=? y) && (y <? H) && (px =? x) && (py =? y).

(** The colour that a sequence of writes leaves on a pixel, if it writes it. *)
Fixpoint last_write (W H : Z) (ws : list (Z * Z * Z)) (px py : Z) : option Z :=
  match ws with
  | [] => None
  | w :: rest =>
      match last_write W H rest px py with
      | Some c => Some c
      | None => if hits W H w px py then Some (snd w) else None
      end
  end.

(** ** An instance of the headers

    The narrowest unsigned types that hold the quantities of the program on
    the UNO's 160x128 display: coordinates and midi pitches in 8 bits, the
    2912 msec of [_msecOnScreen] in 16 bits, [millis()] in 32 bits.  The
    pitch range and the minimum segment duration are arguments. *)
Definition uno (pitchMin pitchMax minSegmentDuration : Z) : headers :=
  {| xCoordinate_t := C.uint8;
     yCoordinate_t := C.uint8;
     segmentPitch_t := C.uint8;
     segmentRelTime_t := C.uint16;
     absoluteTime_t := C.uint32;
     octaveNr_t := C.uint8;
     pitch_of_FREQ_MIN := pitchMin;
     pitch_of_FREQ_MAX := pitchMax;
     MIN_SEGMENT_DURATION := C.V C.uint16 minSegmentDuration;
     noteNr_C := 0;
     noteNr_G := 7 |}.

(** The same headers with another type for [xCoordinate_t]. *)
Definition with_xCoordinate_t (t : C.ity) (hdr : headers) : headers :=
  {| xCoordinate_t := t;
     yCoordinate_t := yCoordinate_t hdr;
     segmentPitch_t := segmentPitch_t hdr;
     segmentRelTime_t := segmentRelTime_t hdr;
     absoluteTime_t := absoluteTime_t hdr;
     octaveNr_t := octaveNr_t hdr;
     pitch_of_FREQ_MIN := pitch_of_FREQ_MIN hdr;
     pitch_of_FREQ_MAX := pitch_of_FREQ_MAX hdr;
     MIN_SEGMENT_DURATION := MIN_SEGMENT_DURATION hdr;
     noteNr_C := noteNr_C hdr;
     noteNr_G := noteNr_G hdr |}.

(** The file-scope variables before [PianoRoll::begin]: zero-initialised. *)
Definition power_on : state :=
  {| _display := {| width := 0; height := 0 |};
     _distance := {| pitch2pitch := 0; bottom2loPitch := 0 |};
     _msecPerPixel := 0;
     _msecOnScreen := 0;
     _msecStart := 0 |}.

(** ** The rows of the grid and the order of the bars *)

(** The pitches the [for] loop of [_displayRoll] visits: [k] consecutive
    pitches from [ii] on. *)
Fixpoint pitches_from (ii : Z) (k : nat) : list Z :=
  match k with
  | O => []
  | S k' => ii :: pitches_from (ii + 1) k'
  end.

Definition pitch_range (hdr : headers) : list Z :=
  pitches_from (PITCH_MIN hdr) (Z.to_nat (PITCH_MAX hdr - PITCH_MIN hdr + 1)).

(** [color] in [_displayRoll], for a pitch without wrap-around. *)
Definition roll_color (hdr : headers) (p : Z) : Z :=
  if p mod 12 =? noteNr_C hdr then COLOR_ROLLC
  else if p mod 12 =? noteNr_G hdr then COLOR_ROLLG
  else COLOR_ROLLOTHER.

(** The note name that [_displayRoll] writes on the far left of the row of
    pitch [p], at height [y]: the letter, then the octave digit. *)
Definition roll_labels (hdr : headers) (p y : Z) : list cmd :=
  if (p mod 12 =? noteNr_C hdr) || (p mod 12 =? noteNr_G hdr) then
    [ drawChar 0 (y - 3) (if p mod 12 =? noteNr_C hdr then 67 else 71)
               (roll_color hdr p) (roll_color hdr p) 1;
      drawChar 6 (y - 3) (48 + p / 12) (roll_color hdr p) (roll_color hdr p) 1 ]
  else [].

(** Bars (onset, offset, pitch), newest first, each ending in the window
    [(bound, last]] and no later than the onset of the bar before it. *)
Fixpoint bars_ordered (bound last : Z) (bars : list (Z * Z * Z)) : Prop :=
  match bars with
  | [] => True
  | (onset', offset, _) :: older =>
      bound < offset <= last /\ onset' <= offset /\
      bars_ordered bound onset' older
  end.

(** * Properties *)

(** ** Conversions and arithmetic without wrap-around *)

Lemma bits_pos t : 8 <= C.bits t.
Proof. unfold C.bits; destruct (C.width t); lia. Qed.

Lemma pow_bits_split t : 2 ^ C.bits t = 2 * 2 ^ (C.bits t - 1).
Proof.
  pose proof (bits_pos t).
  replace (C.bits t) with (Z.succ (C.bits t - 1)) at 1 by lia.
  rewrite Z.pow_succ_r by lia. reflexivity.
Qed.

Lemma pow_half_pos t : 0 < 2 ^ (C.bits t - 1).
Proof. pose proof (bits_pos t). apply Z.pow_pos_nonneg; lia. Qed.

Lemma min_val_nonpos t : C.min_val t <= 0.
Proof.
  unfold C.min_val. pose proof (pow_half_pos t). destruct (C.signed t); lia.
Qed.

Lemma max_val_pos t : 127 <= C.max_val t.
Proof. destruct t as [[] []]; unfold C.max_val; cbn; lia. Qed.

Lemma wrap_in_range t z : C.in_range t (C.wrap t z).
Proof.
  unfold C.in_range, C.wrap, C.min_val, C.max_val.
  pose proof (pow_bits_split t). pose proof (pow_half_pos t).
  destruct (C.signed t).
  - pose proof (Z.mod_pos_bound (z + 2 ^ (C.bits t - 1)) (2 ^ C.bits t)). lia.
  - pose proof (Z.mod_pos_bound z (2 ^ C.bits t)). lia.
Qed.

Lemma wrap_id t z : C.in_range t z -> C.wrap t z = z.
Proof.
  unfold C.in_range, C.wrap, C.min_val, C.max_val.
  pose proof (pow_bits_split t).
  destruct (C.signed t); intros Hz.
  - rewrite Z.mod_small by lia. lia.
  - apply Z.mod_small. lia.
Qed.

Lemma in_range_le t z z' : 0 <= z <= z' -> C.in_range t z' -> C.in_range t z.
Proof. unfold C.in_range. pose proof (min_val_nonpos t). lia. Qed.

Lemma in_rangeb_spec t z : C.in_rangeb t z = true <-> C.in_range t z.
Proof.
  unfold C.in_rangeb, C.in_range. rewrite andb_true_iff, !Z.leb_le. tauto.
Qed.

(** A conversion to an unsigned type never increases a non-negative value. *)
Lemma wrap_unsigned_le t z :
  C.signed t = false -> 0 <= z -> 0 <= C.wrap t z <= z.
Proof.
  unfold C.wrap. intros -> Hz.
  pose proof (bits_pos t).
  assert (0 < 2 ^ C.bits t) by (apply Z.pow_pos_nonneg; lia).
  pose proof (Z.mod_pos_bound z (2 ^ C.bits t)).
  pose proof (Z.mod_le z (2 ^ C.bits t)). lia.
Qed.

(** The common type of an operator holds the non-negative values of both
    operand types. *)
Lemma in_range_usual_l a b z :
  0 <= z -> C.in_range a z -> C.in_range (C.usual a b) z.
Proof.
  destruct a as [[] []], b as [[] []];
    unfold C.in_range, C.min_val, C.max_val; cbn; lia.
Qed.

Lemma in_range_usual_r a b z :
  0 <= z -> C.in_range b z -> C.in_range (C.usual a b) z.
Proof.
  destruct a as [[] []], b as [[] []];
    unfold C.in_range, C.min_val, C.max_val; cbn; lia.
Qed.

Lemma in_range_small t z : 0 <= z <= 127 -> C.in_range t z.
Proof.
  intros Hz. pose proof (min_val_nonpos t). pose proof (max_val_pos t).
  unfold C.in_range. lia.
Qed.

Lemma conv_id t a : C.in_range t (C.num a) -> C.conv t a = C.num a.
Proof. apply wrap_id. Qed.

(** An operator is exact when its operands and its result are in the range
    of the common type. *)
Lemma arith_exact f a b :
  C.in_range (C.usual (C.ty a) (C.ty b)) (C.num a) ->
  C.in_range (C.usual (C.ty a) (C.ty b)) (C.num b) ->
  C.in_range (C.usual (C.ty a) (C.ty b)) (f (C.num a) (C.num b)) ->
  C.arith f a b = C.V (C.usual (C.ty a) (C.ty b)) (f (C.num a) (C.num b)).
Proof.
  intros Ha Hb Hf. unfold C.arith, C.conv.
  rewrite (wrap_id _ _ Ha), (wrap_id _ _ Hb), (wrap_id _ _ Hf). reflexivity.
Qed.

Lemma sub_exact a b :
  0 <= C.num b <= C.num a ->
  C.in_range (C.ty a) (C.num a) ->
  C.sub a b = C.V (C.usual (C.ty a) (C.ty b)) (C.num a - C.num b).
Proof.
  intros Hab Ha. unfold C.sub.
  assert (Ha' : C.in_range (C.usual (C.ty a) (C.ty b)) (C.num a))
    by (apply in_range_usual_l; [lia | exact Ha]).
  apply arith_exact; try exact Ha'; eapply in_range_le; try exact Ha'; lia.
Qed.

Lemma quot_nonneg_bounds x y : 0 <= x -> 0 < y -> 0 <= x / y <= x.
Proof.
  intros Hx Hy. split.
  - apply Z.div_pos; lia.
  - apply Z.div_le_upper_bound; nia.
Qed.

Lemma div_exact a b :
  0 <= C.num a -> 0 < C.num b ->
  C.in_range (C.ty a) (C.num a) ->
  C.in_range (C.ty b) (C.num b) ->
  C.div a b = C.V (C.usual (C.ty a) (C.ty b)) (C.num a / C.num b).
Proof.
  intros Ha Hb Ra Rb. unfold C.div.
  assert (Ha' : C.in_range (C.usual (C.ty a) (C.ty b)) (C.num a))
    by (apply in_range_usual_l; [lia | exact Ra]).
  assert (Hb' : C.in_range (C.usual (C.ty a) (C.ty b)) (C.num b))
    by (apply in_range_usual_r; [lia | exact Rb]).
  pose proof (quot_nonneg_bounds _ _ Ha Hb) as Hq.
  rewrite arith_exact; try assumption.
  - rewrite Z.quot_div_nonneg by lia. reflexivity.
  - rewrite Z.quot_div_nonneg by lia. eapply in_range_le; [|exact Ha']. lia.
Qed.

(** For [+] and [*] the result must be given a bound [m] that one of the
    operand types holds. *)
Lemma add_exact m a b :
  0 <= C.num a -> 0 <= C.num b -> C.num a + C.num b <= m ->
  C.in_range (C.usual (C.ty a) (C.ty b)) m ->
  C.add a b = C.V (C.usual (C.ty a) (C.ty b)) (C.num a + C.num b).
Proof.
  intros Ha Hb Hm Rm. unfold C.add.
  apply arith_exact; eapply in_range_le; try exact Rm; lia.
Qed.

Lemma mul_exact m a b :
  0 <= C.num a -> 0 <= C.num b -> C.num a * C.num b <= m ->
  C.in_range (C.usual (C.ty a) (C.ty b)) (C.num a) ->
  C.in_range (C.usual (C.ty a) (C.ty b)) (C.num b) ->
  C.in_range (C.usual (C.ty a) (C.ty b)) m ->
  C.mul a b = C.V (C.usual (C.ty a) (C.ty b)) (C.num a * C.num b).
Proof.
  intros Ha Hb Hm Ra Rb Rm. unfold C.mul.
  apply arith_exact; try assumption.
  eapply in_range_le; [|exact Rm]. nia.
Qed.

Lemma lt_exact a b :
  0 <= C.num a -> 0 <= C.num b ->
  C.in_range (C.ty a) (C.num a) -> C.in_range (C.ty b) (C.num b) ->
  C.lt a b = (C.num a <? C.num b).
Proof.
  intros Ha Hb Ra Rb. unfold C.lt, C.conv.
  rewrite !wrap_id; auto using in_range_usual_l, in_range_usual_r.
Qed.

(** The value of [c ? a : b], whatever its type. *)
Lemma cond_true a b :
  0 <= C.num a -> C.in_range (C.ty a) (C.num a) ->
  C.num (C.cond true a b) = C.num a.
Proof.
  intros Ha Ra. unfold C.cond, C.cast, C.conv. cbn. apply wrap_id.
  apply in_range_usual_l; assumption.
Qed.

Lemma cond_false a b :
  0 <= C.num b -> C.in_range (C.ty b) (C.num b) ->
  C.num (C.cond false a b) = C.num b.
Proof.
  intros Hb Rb. unfold C.cond, C.cast, C.conv. cbn. apply wrap_id.
  apply in_range_usual_r; assumption.
Qed.

Lemma cond_num c a b :
  0 <= C.num a -> 0 <= C.num b ->
  C.in_range (C.ty a) (C.num a) -> C.in_range (C.ty b) (C.num b) ->
  C.num (C.cond c a b) = if c then C.num a else C.num b.
Proof.
  intros Ha Hb Ra Rb. unfold C.cond, C.cast, C.conv.
  destruct c; cbn; apply wrap_id;
    auto using in_range_usual_l, in_range_usual_r.
Qed.

Lemma min_num a b :
  0 <= C.num a -> 0 <= C.num b ->
  C.in_range (C.ty a) (C.num a) -> C.in_range (C.ty b) (C.num b) ->
  C.num (C.min a b) = Z.min (C.num a) (C.num b).
Proof.
  intros Ha Hb Ra Rb. unfold C.min.
  rewrite cond_num, lt_exact by assumption.
  destruct (Z.ltb_spec (C.num a) (C.num b)); lia.
Qed.

Lemma arith_in_range f a b :
  C.in_range (C.ty (C.arith f a b)) (C.num (C.arith f a b)).
Proof. unfold C.arith. cbn. apply wrap_in_range. Qed.

(** Side conditions [C.in_range t z] for a non-negative [z] below a value
    that [t], or an operand type of [t], is known to hold. *)
Ltac range :=
  match goal with
  | |- C.in_range (C.usual _ _) _ =>
      first [ apply in_range_usual_l; [lia | range]
            | apply in_range_usual_r; [lia | range] ]
  | H : C.in_range ?t ?m |- C.in_range ?t ?z =>
      apply (in_range_le t z m); [lia | exact H]
  | |- C.in_range _ _ => apply in_range_small; lia
  end.

Ltac csimpl := cbn [C.num C.ty C.lit].

(** ** Constants *)

Lemma CHAR_WIDTH_eq hdr : CHAR_WIDTH hdr = 6.
Proof. unfold CHAR_WIDTH. apply wrap_id. csimpl. range. Qed.

Lemma X_FIRSTNOTE_eq hdr : X_FIRSTNOTE hdr = 12.
Proof.
  unfold X_FIRSTNOTE. rewrite CHAR_WIDTH_eq.
  rewrite (mul_exact 12); csimpl; try lia; try range.
  apply wrap_id. csimpl. range.
Qed.

Lemma PITCH_MAX_in_range hdr : C.in_range (segmentPitch_t hdr) (PITCH_MAX hdr).
Proof. apply wrap_in_range. Qed.

Lemma PITCH_MIN_in_range hdr : C.in_range (segmentPitch_t hdr) (PITCH_MIN hdr).
Proof. apply wrap_in_range. Qed.

(** ** Geometry: [_resize] and [_pitch2y] *)

Section Geometry.

Variable hdr : headers.
Local Abbreviation yT := (yCoordinate_t hdr).
Local Abbreviation pT := (segmentPitch_t hdr).

Lemma nrOfPos_eq :
  0 <= PITCH_MIN hdr <= PITCH_MAX hdr ->
  C.in_range pT (PITCH_MAX hdr - PITCH_MIN hdr + 1) ->
  resize_nrOfPos hdr = PITCH_MAX hdr - PITCH_MIN hdr + 1.
Proof.
  intros Hp Rn. pose proof (PITCH_MAX_in_range hdr) as RM.
  unfold resize_nrOfPos.
  rewrite sub_exact; csimpl; [|lia|assumption].
  rewrite (add_exact (PITCH_MAX hdr - PITCH_MIN hdr + 1));
    csimpl; [|lia|lia|lia|range].
  apply wrap_id. assumption.
Qed.

Lemma resize_height (s : state) (w h : Z) :
  C.in_range C.int h -> C.in_range yT h ->
  height (_display (_resize hdr s w h)) = h.
Proof.
  intros Rhi Rhy. unfold _resize; cbn [_display height].
  unfold C.conv; cbn [C.num]. rewrite (wrap_id C.int h) by assumption.
  apply wrap_id. assumption.
Qed.

Lemma resize_distance (s : state) (w h : Z) :
  let nrOfPos := PITCH_MAX hdr - PITCH_MIN hdr + 1 in
  let s' := _resize hdr s w h in
  0 <= PITCH_MIN hdr <= PITCH_MAX hdr ->
  C.in_range pT nrOfPos ->
  0 <= h -> C.in_range C.int h -> C.in_range yT h ->
  pitch2pitch (_distance s') = h / nrOfPos /\
  bottom2loPitch (_distance s') = (h - nrOfPos * (h / nrOfPos)) / 2.
Proof.
  intros n s' Hp Rn Hh Rhi Rhy.
  assert (Hn : 0 < n) by (unfold n; lia).
  pose proof (quot_nonneg_bounds h n Hh Hn) as Hq.
  assert (Hnq : n * (h / n) <= h) by (apply Z.mul_div_le; lia).
  assert (Hnq0 : 0 <= n * (h / n)) by nia.
  assert (E1 : pitch2pitch (_distance s') = h / n).
  { unfold s', _resize; cbn [_distance pitch2pitch].
    rewrite nrOfPos_eq by (assumption || lia). fold n.
    rewrite (wrap_id C.int h) by assumption.
    rewrite div_exact; csimpl; try assumption; try lia.
    apply wrap_id. csimpl. range. }
  split; [exact E1|].
  unfold s', _resize in E1 |- *;
    cbn [_distance pitch2pitch bottom2loPitch] in E1 |- *.
  rewrite E1.
  rewrite nrOfPos_eq by (assumption || lia). fold n.
  rewrite (wrap_id C.int h) by assumption.
  rewrite (mul_exact h); csimpl; try lia; try range.
  rewrite sub_exact; csimpl; [|lia|assumption].
  rewrite div_exact; csimpl; try lia; try range.
  pose proof (quot_nonneg_bounds (h - n * (h / n)) 2 ltac:(lia) ltac:(lia)).
  apply wrap_id. csimpl. range.
Qed.

Lemma pitch2y_resize (s : state) (w h p : Z) :
  let nrOfPos := PITCH_MAX hdr - PITCH_MIN hdr + 1 in
  let s' := _resize hdr s w h in
  0 <= PITCH_MIN hdr <= p -> p <= PITCH_MAX hdr ->
  C.in_range pT nrOfPos ->
  0 <= h -> C.in_range C.int h -> C.in_range yT h ->
  _pitch2y hdr s' p
  = h - bottom2loPitch (_distance s')
    - (p - PITCH_MIN hdr) * pitch2pitch (_distance s').
Proof.
  intros n s' Hp Hp' Rn Hh Rhi Rhy.
  pose proof (PITCH_MAX_in_range hdr) as RM.
  assert (Hn : 0 < n) by (unfold n; lia).
  pose proof (quot_nonneg_bounds h n Hh Hn) as Hq.
  assert (Hnq : n * (h / n) <= h) by (apply Z.mul_div_le; lia).
  assert (Hnq0 : 0 <= n * (h / n)) by nia.
  assert (Hb : 0 <= (h - n * (h / n)) / 2 <= h - n * (h / n)).
  { apply quot_nonneg_bounds; lia. }
  destruct (resize_distance s w h) as [E1 E2]; try assumption; try lia.
  fold n s' in E1, E2.
  unfold _pitch2y. rewrite E1, E2.
  replace (height (_display s')) with h
    by (symmetry; apply resize_height; assumption).
  assert (Hd : 0 <= (p - PITCH_MIN hdr) * (h / n) <= n * (h / n)).
  { split; [nia|].
    apply Z.mul_le_mono_nonneg_r; [lia | unfold n; lia]. }
  rewrite (sub_exact (C.V pT p)); csimpl; [|lia|range].
  rewrite (mul_exact h); csimpl; try lia; try range.
  unfold C.conv at 2; cbn [C.num].
  rewrite (wrap_id yT ((p - PITCH_MIN hdr) * (h / n))) by range.
  rewrite (sub_exact (C.V yT h)); csimpl; [|lia|assumption].
  rewrite sub_exact; csimpl; [|lia|range].
  apply wrap_id. csimpl. range.
Qed.

(** C1 (amended).  After [_resize], [pitch2pitch = height / rowCount] and
    [bottom2loPitch = (height - rowCount * pitch2pitch) / 2], and
    [_pitch2y(pitch) = height - bottom2loPitch - (pitch - PITCH_MIN) *
    pitch2pitch] for every pitch of the range; for PITCH_MIN = 40,
    PITCH_MAX = 52 and height = 130 this gives pitch2pitch = 10,
    bottom2loPitch = 0, [_pitch2y(40) = 130] and [_pitch2y(52) = 10].
    (The pitch range and the height are representable in their types, and
    [_resize] does not divide by zero.) *)
Theorem pitch2y_formula (s : state) (w h : Z) :
  let nrOfPos := PITCH_MAX hdr - PITCH_MIN hdr + 1 in
  let s' := _resize hdr s w h in
  0 <= PITCH_MIN hdr <= PITCH_MAX hdr ->
  C.in_range pT nrOfPos ->
  0 <= h -> C.in_range C.int h -> C.in_range yT h ->
  resize_sWidth hdr w <> 0 ->
  pitch2pitch (_distance s') = h / nrOfPos /\
  bottom2loPitch (_distance s') = (h - nrOfPos * (h / nrOfPos)) / 2 /\
  (forall p, PITCH_MIN hdr <= p <= PITCH_MAX hdr ->
     _pitch2y hdr s' p
     = h - bottom2loPitch (_distance s')
       - (p - PITCH_MIN hdr) * pitch2pitch (_distance s')) /\
  (PITCH_MIN hdr = 40 -> PITCH_MAX hdr = 52 -> h = 130 ->
     pitch2pitch (_distance s') = 10 /\
     bottom2loPitch (_distance s') = 0 /\
     _pitch2y hdr s' 40 = 130 /\
     _pitch2y hdr s' 52 = 10).
Proof.
  intros n s' Hp Rn Hh Rhi Rhy _.
  destruct (resize_distance s w h) as [E1 E2]; try assumption.
  fold n s' in E1, E2.
  assert (F : forall p, PITCH_MIN hdr <= p <= PITCH_MAX hdr ->
            _pitch2y hdr s' p
            = h - bottom2loPitch (_distance s')
              - (p - PITCH_MIN hdr) * pitch2pitch (_distance s')).
  { intros p Hpp. apply pitch2y_resize; try assumption; lia. }
  split; [exact E1|]. split; [exact E2|]. split; [exact F|].
  intros Hmin Hmax ->. rewrite !F by lia. rewrite E1, E2.
  unfold n. rewrite Hmin, Hmax. repeat split; reflexivity.
Qed.

End Geometry.

Lemma pitch2y_formula_witness :
  let s' := _resize (uno 40 52 40) power_on 160 130 in
  pitch2pitch (_distance s') = 10 /\
  bottom2loPitch (_distance s') = 0 /\
  _pitch2y (uno 40 52 40) s' 40 = 130 /\
  _pitch2y (uno 40 52 40) s' 52 = 10.
Proof.
  intro s'.
  refine (proj2 (proj2 (proj2
    (pitch2y_formula (uno 40 52 40) power_on 160 130 _ _ _ _ _ _)))
    eq_refl eq_refl eq_refl);
    vm_compute; try split; congruence.
Defined.

(** C1, as stated, fails: with PITCH_MIN = 40, PITCH_MAX = 52 and
    height = 130 the bottom row is at y = 130 (the claim says 120) and the
    top row at y = 10 (the claim says 0). *)
Lemma pitch2y_scenario_counterexample :
  _pitch2y (uno 40 52 40) (_resize (uno 40 52 40) power_on 160 130) 40 = 130 /\
  _pitch2y (uno 40 52 40) (_resize (uno 40 52 40) power_on 160 130) 52 = 10.
Proof. split; reflexivity. Qed.

(** ** Geometry: [_time2x] *)

Section TimeAxis.

Variable hdr : headers.
Local Abbreviation xT := (xCoordinate_t hdr).
Local Abbreviation rT := (segmentRelTime_t hdr).
Local Abbreviation aT := (absoluteTime_t hdr).

Lemma time2x_left (s : state) (t t0 : Z) :
  0 <= _msecStart s <= t -> 0 <= t0 ->
  C.in_range aT t -> C.in_range aT t0 ->
  t - _msecStart s <= t0 ->
  _time2x hdr s t t0 = X_FIRSTNOTE hdr.
Proof.
  intros Ht Ht0 Rt Rt0 Hle. unfold _time2x.
  rewrite (sub_exact (C.V aT t)); csimpl; [|lia|assumption].
  unfold C.gt. rewrite lt_exact; csimpl; try lia; try range.
  replace (t0 <? t - _msecStart s) with false
    by (symmetry; apply Z.ltb_ge; lia).
  unfold C.conv at 2. rewrite cond_false; csimpl; [|lia|range].
  rewrite (wrap_id xT 0) by range.
  rewrite X_FIRSTNOTE_eq.
  rewrite (add_exact 12); csimpl; try lia; try range.
  apply wrap_id. csimpl. range.
Qed.

Lemma time2x_right (s : state) (t t0 : Z) :
  0 <= _msecStart s <= t -> 0 <= t0 ->
  C.in_range aT t -> C.in_range aT t0 ->
  0 < _msecPerPixel s -> C.in_range rT (_msecPerPixel s) ->
  t0 < t - _msecStart s ->
  C.in_range xT (X_FIRSTNOTE hdr + (t - _msecStart s - t0) / _msecPerPixel s) ->
  _time2x hdr s t t0
  = X_FIRSTNOTE hdr + (t - _msecStart s - t0) / _msecPerPixel s.
Proof.
  intros Ht Ht0 Rt Rt0 Hm Rm Hlt Rx. unfold _time2x.
  rewrite X_FIRSTNOTE_eq in *.
  pose proof (quot_nonneg_bounds (t - _msecStart s - t0) (_msecPerPixel s)
                ltac:(lia) Hm) as Hq.
  rewrite (sub_exact (C.V aT t)); csimpl; [|lia|assumption].
  unfold C.gt. rewrite lt_exact; csimpl; try lia; try range.
  replace (t0 <? t - _msecStart s) with true
    by (symmetry; apply Z.ltb_lt; lia).
  rewrite sub_exact; csimpl; [|lia|range].
  rewrite div_exact; csimpl; try lia; try range; try assumption.
  unfold C.conv at 2. rewrite cond_true; csimpl; [|lia|range].
  rewrite (wrap_id xT ((t - _msecStart s - t0) / _msecPerPixel s)) by range.
  rewrite (add_exact (12 + (t - _msecStart s - t0) / _msecPerPixel s));
    csimpl; try lia; try range.
  apply wrap_id. csimpl. range.
Qed.

(** C2 (amended).  For a time [t] not before the scroll epoch, a positive
    [_msecPerPixel], and provided the column
    [X_FIRSTNOTE + (t - msecStart - t0) / msecPerPixel] is representable in
    [xCoordinate_t]: [_time2x(t, t0) >= X_FIRSTNOTE]; it is exactly
    [X_FIRSTNOTE] when [t - msecStart <= t0], and otherwise
    [X_FIRSTNOTE + (t - msecStart - t0) / msecPerPixel], the division
    flooring. *)
Theorem time2x_clamp_or_scale (s : state) (t t0 : Z) :
  0 <= _msecStart s <= t -> 0 <= t0 ->
  C.in_range aT t -> C.in_range aT t0 ->
  0 < _msecPerPixel s -> C.in_range rT (_msecPerPixel s) ->
  (t0 < t - _msecStart s ->
   C.in_range xT
     (X_FIRSTNOTE hdr + (t - _msecStart s - t0) / _msecPerPixel s)) ->
  X_FIRSTNOTE hdr <= _time2x hdr s t t0 /\
  (t - _msecStart s <= t0 -> _time2x hdr s t t0 = X_FIRSTNOTE hdr) /\
  (t0 < t - _msecStart s ->
   _time2x hdr s t t0
   = X_FIRSTNOTE hdr + (t - _msecStart s - t0) / _msecPerPixel s).
Proof.
  intros Ht Ht0 Rt Rt0 Hm Rm Rx.
  assert (L : t - _msecStart s <= t0 -> _time2x hdr s t t0 = X_FIRSTNOTE hdr)
    by (intro; apply time2x_left; assumption).
  assert (R : t0 < t - _msecStart s ->
              _time2x hdr s t t0
              = X_FIRSTNOTE hdr + (t - _msecStart s - t0) / _msecPerPixel s)
    by (intro; apply time2x_right; auto).
  split; [|split; assumption].
  destruct (Z_le_gt_dec (t - _msecStart s) t0) as [Hle|Hgt].
  - rewrite L by assumption. lia.
  - rewrite R by lia.
    pose proof (quot_nonneg_bounds (t - _msecStart s - t0) (_msecPerPixel s)
                  ltac:(lia) Hm). lia.
Qed.

(** [sWidth] is the screen width less [X_FIRSTNOTE] when that difference is
    representable in [xCoordinate_t]. *)
Lemma resize_sWidth_exact (w : Z) :
  C.in_range C.int w -> X_FIRSTNOTE hdr <= w ->
  C.in_range xT (w - X_FIRSTNOTE hdr) ->
  resize_sWidth hdr w = w - X_FIRSTNOTE hdr.
Proof.
  intros Rw Hw Rx. pose proof (X_FIRSTNOTE_eq hdr) as HX.
  unfold resize_sWidth. rewrite (wrap_id C.int w) by assumption.
  rewrite sub_exact; csimpl; [|lia|assumption].
  apply wrap_id. assumption.
Qed.

(** [_msecOnScreen] and [_msecPerPixel] as [_resize] leaves them. *)
Lemma resize_msec_fields (s : state) (w h : Z) :
  0 < resize_sWidth hdr w -> C.in_range rT 2912 ->
  _msecOnScreen (_resize hdr s w h) = 2912 /\
  _msecPerPixel (_resize hdr s w h) = 2912 / resize_sWidth hdr w.
Proof.
  intros Hw Rr.
  assert (Rw : C.in_range xT (resize_sWidth hdr w)) by apply wrap_in_range.
  split.
  - unfold _resize; cbn [_msecOnScreen]. apply wrap_id. exact Rr.
  - unfold _resize; cbn [_msecPerPixel].
    rewrite (conv_id rT (C.lit 2912)) by exact Rr. csimpl.
    rewrite div_exact; csimpl; try lia; try assumption.
    pose proof (quot_nonneg_bounds 2912 (resize_sWidth hdr w)
                  ltac:(lia) ltac:(lia)).
    apply wrap_id. csimpl. range.
Qed.

(** C6 (amended).  After [_resize(width, height)], with
    [screenWidthPixels = width - X_FIRSTNOTE] positive and representable in
    [xCoordinate_t] (and [width] in [int], 2912 in [segmentRelTime_t]):
    [_msecOnScreen] is the constant 2912 and
    [_msecPerPixel = _msecOnScreen / screenWidthPixels]; when
    [screenWidthPixels = 300] this is 9, and [_time2x] of
    [t = msecStart + 100] with [t0 = 0] is [X_FIRSTNOTE + 11]. *)
Theorem resize_time_scale (s : state) (w h : Z) :
  let s' := _resize hdr s w h in
  let screenWidthPixels := w - X_FIRSTNOTE hdr in
  C.in_range C.int w ->
  0 < screenWidthPixels -> C.in_range xT screenWidthPixels ->
  resize_nrOfPos hdr <> 0 ->
  C.in_range rT 2912 ->
  0 <= _msecStart s -> C.in_range aT (_msecStart s + 100) ->
  _msecOnScreen s' = 2912 /\
  _msecPerPixel s' = _msecOnScreen s' / screenWidthPixels /\
  (screenWidthPixels = 300 ->
   _msecPerPixel s' = 9 /\
   _time2x hdr s' (_msecStart s' + 100) 0 = X_FIRSTNOTE hdr + 11).
Proof.
  intros s' px Rwi Hpx Rpx _ Rr Hms Rms.
  pose proof (X_FIRSTNOTE_eq hdr) as HX.
  assert (Esw : resize_sWidth hdr w = px)
    by (apply resize_sWidth_exact; [assumption | unfold px in Hpx; lia
                                    | assumption]).
  destruct (resize_msec_fields s w h) as [E1 E2];
    [rewrite Esw; exact Hpx | exact Rr |].
  fold s' in E1, E2. rewrite Esw in E2.
  split; [exact E1|]. split; [rewrite E1; exact E2|].
  intros Hs. assert (E3 : _msecPerPixel s' = 9) by (rewrite E2, Hs; reflexivity).
  split; [exact E3|].
  assert (Hst : _msecStart s' = _msecStart s) by reflexivity.
  assert (E4 : (_msecStart s' + 100 - _msecStart s' - 0) / _msecPerPixel s'
               = 11).
  { rewrite E3. replace (_msecStart s' + 100 - _msecStart s' - 0) with 100
      by lia. reflexivity. }
  rewrite time2x_right; rewrite ?E4, ?E3, ?Hst; try lia; try range.
Qed.

(** X2.  [_resize] leaves the state ready for [show]: when [sWidth], the
    screen width less [X_FIRSTNOTE] as converted to [xCoordinate_t], is
    between 1 and 2912, [_msecOnScreen] is 2912 and
    [_msecPerPixel = 2912 / sWidth] is at least 1, so that the divisions of
    [show] and [_time2x] are defined ([ready]).  [sWidth] is
    [width - X_FIRSTNOTE] itself when that is representable in
    [xCoordinate_t]. *)
Lemma resize_ready (s : state) (w h : Z) :
  let s' := _resize hdr s w h in
  let sWidth := resize_sWidth hdr w in
  0 < sWidth <= 2912 -> C.in_range rT 2912 ->
  _msecOnScreen s' = 2912 /\
  _msecPerPixel s' = 2912 / sWidth /\
  1 <= _msecPerPixel s' /\
  ready hdr s' /\
  (C.in_range C.int w -> X_FIRSTNOTE hdr <= w ->
   C.in_range xT (w - X_FIRSTNOTE hdr) ->
   sWidth = w - X_FIRSTNOTE hdr).
Proof.
  intros s' sWidth Hw Rr.
  destruct (resize_msec_fields s w h) as [E1 E2]; [fold sWidth; lia | exact Rr |].
  fold s' sWidth in E1, E2.
  pose proof (quot_nonneg_bounds 2912 sWidth ltac:(lia) ltac:(lia)) as Hq.
  assert (H1 : 1 <= 2912 / sWidth) by (apply Z.div_le_lower_bound; lia).
  split; [exact E1|]. split; [exact E2|]. split; [rewrite E2; exact H1|].
  split.
  - unfold ready. rewrite E1, E2.
    split; [lia|]. split; [assumption|]. split; [lia|]. range.
  - apply resize_sWidth_exact.
Qed.

End TimeAxis.

Lemma time2x_clamp_or_scale_witness :
  let s := _resize (uno 40 52 40) power_on 160 128 in
  _time2x (uno 40 52 40) s 100 0 = 17 /\ _time2x (uno 40 52 40) s 0 0 = 12.
Proof.
  intro s. split.
  - refine (proj2 (proj2
      (time2x_clamp_or_scale (uno 40 52 40) s 100 0 _ _ _ _ _ _ _)) _);
      vm_compute; try split; congruence.
  - refine (proj1 (proj2
      (time2x_clamp_or_scale (uno 40 52 40) s 0 0 _ _ _ _ _ _ _)) _);
      vm_compute; try split; congruence.
Defined.

(** C2, as stated, fails.  For a time [t = 500] before [msecStart = 1000],
    where [t - msecStart <= t0 = 0 <= t], the unsigned difference
    [t - msecStart] is large and the result is 80 (17232 with a 16-bit
    [xCoordinate_t]), not [X_FIRSTNOTE = 12].  And 4636 msec after the left
    edge the column is [X_FIRSTNOTE + 4636 / 19 = 256], which an 8-bit
    [xCoordinate_t] turns into 0, left of [X_FIRSTNOTE]; a 16-bit
    [xCoordinate_t] does the same 1244956 msec after the left edge. *)
Lemma time2x_wraps_counterexample :
  let hdr := uno 40 52 40 in
  let s := _resize hdr power_on 160 128 in
  let hdr16 := with_xCoordinate_t C.uint16 hdr in
  let s16 := _resize hdr16 power_on 160 128 in
  (exists cmds s',
     clear hdr 20 s 1000 = Some (cmds, s') /\
     _msecStart s' = 1000 /\ _time2x hdr s' 500 0 = 80) /\
  (exists cmds s',
     clear hdr16 20 s16 1000 = Some (cmds, s') /\
     _msecStart s' = 1000 /\ _time2x hdr16 s' 500 0 = 17232) /\
  (_msecStart s = 0 /\ _msecPerPixel s = 19 /\ X_FIRSTNOTE hdr = 12 /\
   _time2x hdr s 4636 0 = 0) /\
  _time2x hdr16 s16 1244956 0 = 0.
Proof.
  cbv zeta. split; [|split; [|split]].
  - eexists. eexists. split; [vm_compute; reflexivity|].
    split; reflexivity.
  - eexists. eexists. split; [vm_compute; reflexivity|].
    split; reflexivity.
  - repeat split; reflexivity.
  - reflexivity.
Qed.

Lemma resize_ready_witness :
  let hdr := uno 40 52 40 in
  let s' := _resize hdr power_on 160 128 in
  _msecOnScreen s' = 2912 /\ _msecPerPixel s' = 2912 / 148 /\
  1 <= _msecPerPixel s' /\ ready hdr s' /\
  resize_sWidth hdr 160 = 160 - X_FIRSTNOTE hdr.
Proof.
  intros hdr s'.
  refine (match resize_ready hdr power_on 160 128 _ _ with
          | conj E1 (conj E2 (conj H1 (conj R T))) =>
              conj E1 (conj E2 (conj H1 (conj R (T _ _ _))))
          end);
    vm_compute; first [lia | intuition congruence].
Defined.

Lemma resize_time_scale_witness :
  let hdr := uno 40 52 40 in
  let hdr16 := with_xCoordinate_t C.uint16 hdr in
  let s' := _resize hdr power_on 160 128 in
  let s16 := _resize hdr16 power_on 312 128 in
  _msecPerPixel s' = _msecOnScreen s' / (160 - X_FIRSTNOTE hdr) /\
  _msecPerPixel s16 = 9 /\
  _time2x hdr16 s16 (_msecStart s16 + 100) 0 = X_FIRSTNOTE hdr16 + 11.
Proof.
  intros hdr hdr16 s' s16. split.
  - refine (proj1 (proj2
      (resize_time_scale hdr power_on 160 128 _ _ _ _ _ _ _)));
      vm_compute; first [lia | intuition congruence].
  - refine (proj2 (proj2
      (resize_time_scale hdr16 power_on 312 128 _ _ _ _ _ _ _)) _);
      vm_compute; first [lia | intuition congruence].
Defined.

(** With the 8-bit [xCoordinate_t] of [uno], a screen width of 312 gives
    [screenWidth - X_FIRSTNOTE = 300], but [sWidth] is 300 converted to
    8 bits, 44: [_msecPerPixel] is [2912 / 44 = 66], not 9, and [_time2x] of
    [t = msecStart + 100] with [t0 = 0] is [X_FIRSTNOTE + 100 / 66 = 13],
    not [X_FIRSTNOTE + 11 = 23]. *)
Lemma resize_time_scale_counterexample :
  let hdr := uno 40 52 40 in
  let s' := _resize hdr power_on 312 128 in
  312 - X_FIRSTNOTE hdr = 300 /\
  _msecOnScreen s' = 2912 /\
  resize_sWidth hdr 312 = 44 /\
  _msecPerPixel s' = 66 /\
  X_FIRSTNOTE hdr + 11 = 23 /\
  _time2x hdr s' (_msecStart s' + 100) 0 = 13.
Proof. cbv zeta. repeat split; reflexivity. Qed.

(** ** The scroll and invalidation controller *)

Lemma usual_idem_l a b : C.usual (C.usual a a) b = C.usual a b.
Proof. destruct a as [[] []], b as [[] []]; reflexivity. Qed.

(** With unsigned coordinates and a [segmentRelTime_t] that is unsigned and
    holds the 2912 of [_msecOnScreen], the product
    [(cursor - X_FIRSTNOTE) * _msecPerPixel] is computed in an unsigned type. *)
Lemma product_type_unsigned a r :
  C.signed a = false -> C.signed r = false -> C.in_range r 2912 ->
  C.signed (C.usual (C.usual a a) r) = false.
Proof.
  destruct a as [[] []], r as [[] []]; cbn; intros Ha Hr Rr;
    try reflexivity; try discriminate;
    unfold C.in_range, C.max_val in Rr; cbn in Rr; lia.
Qed.

Lemma mul_unsigned_le a b :
  C.signed (C.usual (C.ty a) (C.ty b)) = false ->
  0 <= C.num a -> 0 <= C.num b ->
  C.in_range (C.ty a) (C.num a) -> C.in_range (C.ty b) (C.num b) ->
  0 <= C.num (C.mul a b) <= C.num a * C.num b.
Proof.
  intros Hu Ha Hb Ra Rb. unfold C.mul, C.arith, C.conv. cbn [C.num].
  rewrite (wrap_id _ (C.num a)) by (apply in_range_usual_l; assumption).
  rewrite (wrap_id _ (C.num b)) by (apply in_range_usual_r; assumption).
  apply wrap_unsigned_le; [assumption | nia].
Qed.

Section Controller.

Variable hdr : headers.
Local Abbreviation xT := (xCoordinate_t hdr).
Local Abbreviation rT := (segmentRelTime_t hdr).
Local Abbreviation aT := (absoluteTime_t hdr).

Lemma maxLoopTime_eq : maxLoopTime hdr = 60.
Proof. unfold maxLoopTime. apply wrap_id. csimpl. range. Qed.

Lemma show_wipe_min (s : state) (cursor : Z) :
  0 <= cursor <= width (_display s) ->
  C.in_range xT (width (_display s)) ->
  show_wipe hdr s cursor
  = Z.min (width (_display s) / 20) (width (_display s) - cursor).
Proof.
  intros Hc Rw. unfold show_wipe.
  pose proof (quot_nonneg_bounds (width (_display s)) 20 ltac:(lia) ltac:(lia)).
  rewrite div_exact; csimpl; try lia; try assumption; try range.
  rewrite sub_exact; csimpl; [|lia|assumption].
  unfold C.conv. rewrite min_num; csimpl; try lia; try range.
  apply wrap_id. range.
Qed.

(** X1.  On a refresh tick whose cursor is not beyond the right edge of the
    screen, the region filled with the background colour right of the
    cursor has width [min(width / 20, width - cursor)], which is at most the
    remaining screen width. *)
Theorem wipe_width (s : state) (millis : Z) :
  let cursor := show_cursor hdr s (C.conv aT (C.V C.uint32 millis)) in
  let wipe := Z.min (width (_display s) / 20) (width (_display s) - cursor) in
  ready hdr s ->
  0 <= cursor <= width (_display s) ->
  C.in_range xT (width (_display s)) ->
  nth_error (show_prologue hdr s cursor) 0
  = Some (fillRect cursor 0 wipe (height (_display s)) COLOR_BG) /\
  show_wipe hdr s cursor = wipe /\
  0 <= wipe <= width (_display s) - cursor.
Proof.
  intros cursor wipe _ Hc Rw.
  pose proof (show_wipe_min s cursor Hc Rw) as E. fold wipe in E.
  split; [unfold show_prologue; cbn [nth_error]; rewrite E; reflexivity|].
  split; [exact E|].
  pose proof (quot_nonneg_bounds (width (_display s)) 20 ltac:(lia) ltac:(lia)).
  unfold wipe. lia.
Qed.

Lemma show_drawInMsec_min (s : state) (cursor : Z) :
  let m := C.num (MIN_SEGMENT_DURATION hdr) in
  let mpp := _msecPerPixel s in
  X_FIRSTNOTE hdr <= cursor -> C.in_range xT cursor ->
  0 <= mpp -> C.in_range rT mpp ->
  0 <= m -> C.in_range (C.ty (MIN_SEGMENT_DURATION hdr)) m ->
  C.in_range aT (m + 60) ->
  C.in_range (C.usual xT rT) ((cursor - X_FIRSTNOTE hdr) * mpp) ->
  show_drawInMsec hdr s cursor = Z.min (m + 60) ((cursor - X_FIRSTNOTE hdr) * mpp).
Proof.
  intros m mpp Hc Rc Hm Rm Hmin Rmin Rsum Rprod.
  pose proof (X_FIRSTNOTE_eq hdr) as HX.
  unfold show_drawInMsec. rewrite maxLoopTime_eq.
  rewrite (add_exact (m + 60)); csimpl; try (fold m; lia); try range.
  rewrite (sub_exact (C.V xT cursor)); csimpl; [|lia|assumption].
  fold m mpp.
  assert (0 <= (cursor - X_FIRSTNOTE hdr) * mpp) by nia.
  rewrite (mul_exact ((cursor - X_FIRSTNOTE hdr) * mpp)); csimpl;
    try lia; try range; [|rewrite usual_idem_l; assumption].
  unfold C.conv. rewrite min_num; csimpl; try lia; try range;
    [|rewrite usual_idem_l; assumption].
  apply wrap_id. range.
Qed.

Lemma show_drawInPixels_quot (s : state) (drawInMsec : Z) :
  0 <= drawInMsec -> C.in_range xT drawInMsec ->
  0 < _msecPerPixel s -> C.in_range rT (_msecPerPixel s) ->
  show_drawInPixels hdr s drawInMsec = drawInMsec / _msecPerPixel s.
Proof.
  intros Hd Rd Hm Rm. unfold show_drawInPixels, C.cast.
  rewrite (conv_id xT (C.V aT drawInMsec)) by (csimpl; assumption). csimpl.
  pose proof (quot_nonneg_bounds drawInMsec (_msecPerPixel s) Hd Hm).
  rewrite div_exact; csimpl; try lia; try assumption.
  apply wrap_id. csimpl. range.
Qed.

Lemma trailing_window_at (s : state) (cursor : Z) :
  let m := C.num (MIN_SEGMENT_DURATION hdr) in
  let mpp := _msecPerPixel s in
  let drawInMsec := show_drawInMsec hdr s cursor in
  X_FIRSTNOTE hdr <= cursor -> C.in_range xT cursor ->
  0 < mpp -> C.in_range rT mpp ->
  0 <= m -> C.in_range (C.ty (MIN_SEGMENT_DURATION hdr)) m ->
  C.in_range aT (m + 60) ->
  C.in_range (C.usual xT rT) ((cursor - X_FIRSTNOTE hdr) * mpp) ->
  drawInMsec = Z.min (m + 60) ((cursor - X_FIRSTNOTE hdr) * mpp) /\
  drawInMsec <= (cursor - X_FIRSTNOTE hdr) * mpp /\
  (C.in_range xT drawInMsec ->
   show_drawInPixels hdr s drawInMsec = drawInMsec / mpp /\
   nth_error (show_prologue hdr s cursor) 2
   = Some (fillRect (cursor - drawInMsec / mpp) 0 (drawInMsec / mpp)
                    (height (_display s)) COLOR_BG)).
Proof.
  intros m mpp d Hc Rc Hm Rm Hmin Rmin Rsum Rprod.
  pose proof (X_FIRSTNOTE_eq hdr) as HX.
  assert (Hprod : 0 <= (cursor - X_FIRSTNOTE hdr) * mpp) by nia.
  assert (E : d = Z.min (m + 60) ((cursor - X_FIRSTNOTE hdr) * mpp))
    by (apply show_drawInMsec_min; assumption || lia).
  split; [exact E|]. split; [lia|].
  intros Rd.
  assert (Q : show_drawInPixels hdr s d = d / mpp)
    by (apply show_drawInPixels_quot; try assumption; lia).
  split; [exact Q|].
  assert (Hq : 0 <= d / mpp <= cursor - X_FIRSTNOTE hdr).
  { split; [apply Z.div_pos; lia|].
    apply Z.div_le_upper_bound; [lia|]. nia. }
  unfold show_prologue. cbn [nth_error]. fold d. rewrite Q.
  rewrite sub_exact; csimpl; [reflexivity|lia|assumption].
Qed.

Lemma show_cursor_in_range (s : state) (now : Z) :
  C.in_range xT (show_cursor hdr s now).
Proof. unfold show_cursor, _time2x. apply wrap_in_range. Qed.

(** C4 (amended).  On a refresh tick with [cursor >= X_FIRSTNOTE], the
    trailing redraw window is [drawInMsec = min(MIN_SEGMENT_DURATION +
    maxLoopTime, (cursor - X_FIRSTNOTE) * msecPerPixel)], never more than
    [(cursor - X_FIRSTNOTE) * msecPerPixel]; [drawInMsec] is converted to
    [xCoordinate_t] before it is divided, so
    [drawInPixels = drawInMsec / msecPerPixel] when [drawInMsec] is
    representable in [xCoordinate_t].  (The sum and the product are
    representable in the types they are computed in.) *)
Theorem trailing_window (s : state) (millis : Z) :
  let cursor := show_cursor hdr s (C.conv aT (C.V C.uint32 millis)) in
  let m := C.num (MIN_SEGMENT_DURATION hdr) in
  let mpp := _msecPerPixel s in
  let drawInMsec := show_drawInMsec hdr s cursor in
  X_FIRSTNOTE hdr <= cursor ->
  0 < mpp -> C.in_range rT mpp ->
  0 <= m -> C.in_range (C.ty (MIN_SEGMENT_DURATION hdr)) m ->
  C.in_range aT (m + 60) ->
  C.in_range (C.usual xT rT) ((cursor - X_FIRSTNOTE hdr) * mpp) ->
  drawInMsec = Z.min (m + 60) ((cursor - X_FIRSTNOTE hdr) * mpp) /\
  drawInMsec <= (cursor - X_FIRSTNOTE hdr) * mpp /\
  (C.in_range xT drawInMsec ->
   show_drawInPixels hdr s drawInMsec = drawInMsec / mpp /\
   nth_error (show_prologue hdr s cursor) 2
   = Some (fillRect (cursor - drawInMsec / mpp) 0 (drawInMsec / mpp)
                    (height (_display s)) COLOR_BG)).
Proof.
  intros cursor m mpp d Hc Hm Rm Hmin Rmin Rsum Rprod.
  apply trailing_window_at; try assumption.
  apply show_cursor_in_range.
Qed.

Lemma show_drawInMsec_bounds (s : state) (cursor : Z) :
  C.signed xT = false -> C.signed rT = false -> C.signed aT = false ->
  C.in_range rT 2912 ->
  0 <= C.num (C.add (MIN_SEGMENT_DURATION hdr) (C.V aT (maxLoopTime hdr))) ->
  X_FIRSTNOTE hdr <= cursor -> C.in_range xT cursor ->
  0 <= _msecPerPixel s -> C.in_range rT (_msecPerPixel s) ->
  0 <= show_drawInMsec hdr s cursor
    <= (cursor - X_FIRSTNOTE hdr) * _msecPerPixel s.
Proof.
  intros Ux Ur Ua Rr Hsum Hc Rc Hm Rm.
  pose proof (X_FIRSTNOTE_eq hdr) as HX.
  unfold show_drawInMsec.
  set (A := C.add (MIN_SEGMENT_DURATION hdr) (C.V aT (maxLoopTime hdr))) in *.
  rewrite (sub_exact (C.V xT cursor)); csimpl; [|lia|assumption].
  set (B := C.mul _ _).
  assert (HB : 0 <= C.num B <= (cursor - X_FIRSTNOTE hdr) * _msecPerPixel s).
  { apply (mul_unsigned_le
             (C.V (C.usual xT xT) (cursor - X_FIRSTNOTE hdr))
             (C.V rT (_msecPerPixel s))); csimpl;
      try lia; try assumption; try range.
    apply product_type_unsigned; assumption. }
  assert (RA : C.in_range (C.ty A) (C.num A)) by apply arith_in_range.
  assert (RB : C.in_range (C.ty B) (C.num B)) by apply arith_in_range.
  unfold C.conv. rewrite min_num by (assumption || lia).
  pose proof (wrap_unsigned_le aT (Z.min (C.num A) (C.num B)) Ua ltac:(lia)).
  lia.
Qed.

Lemma redraw_right_of_margin_at (s : state) (cursor : Z) :
  let drawInMsec := show_drawInMsec hdr s cursor in
  let drawInPixels := show_drawInPixels hdr s drawInMsec in
  C.signed xT = false -> C.signed rT = false -> C.signed aT = false ->
  C.in_range rT 2912 ->
  0 <= C.num (C.add (MIN_SEGMENT_DURATION hdr) (C.V aT (maxLoopTime hdr))) ->
  X_FIRSTNOTE hdr <= cursor -> C.in_range xT cursor ->
  0 < _msecPerPixel s -> C.in_range rT (_msecPerPixel s) ->
  drawInMsec <= (cursor - X_FIRSTNOTE hdr) * _msecPerPixel s /\
  0 <= drawInPixels <= cursor - X_FIRSTNOTE hdr /\
  nth_error (show_prologue hdr s cursor) 2
  = Some (fillRect (cursor - drawInPixels) 0 drawInPixels
                   (height (_display s)) COLOR_BG) /\
  X_FIRSTNOTE hdr <= cursor - drawInPixels.
Proof.
  intros d px Ux Ur Ua Rr Hsum Hc Rc Hm Rm.
  pose proof (X_FIRSTNOTE_eq hdr) as HX.
  assert (Hd : 0 <= d <= (cursor - X_FIRSTNOTE hdr) * _msecPerPixel s)
    by (apply show_drawInMsec_bounds; assumption || lia).
  assert (Hpx : 0 <= px <= cursor - X_FIRSTNOTE hdr).
  { pose proof (wrap_unsigned_le xT d Ux ltac:(lia)) as Hd'.
    pose proof (wrap_in_range xT d) as Rd'.
    pose proof (quot_nonneg_bounds (C.wrap xT d) (_msecPerPixel s)
                  ltac:(lia) Hm) as Hq.
    assert (E : px = C.wrap xT d / _msecPerPixel s).
    { unfold px, show_drawInPixels, C.cast.
      unfold C.conv at 2. csimpl.
      rewrite div_exact; csimpl; try lia; try assumption.
      apply conv_id. csimpl. range. }
    rewrite E. split; [lia|].
    apply Z.div_le_upper_bound; [lia|]. nia. }
  split; [lia|]. split; [exact Hpx|].
  split; [|lia].
  unfold show_prologue. cbn [nth_error]. fold d px.
  rewrite sub_exact; csimpl; [reflexivity|lia|assumption].
Qed.

(** C9.  On a refresh tick with [cursor >= X_FIRSTNOTE] and
    [msecPerPixel > 0], [drawInPixels <= cursor - X_FIRSTNOTE]: the erased
    and redrawn region starts at [cursor - drawInPixels], which is not left
    of [X_FIRSTNOTE].  (The types of coordinates and times are unsigned,
    and [segmentRelTime_t] holds the 2912 of [_msecOnScreen].) *)
Theorem redraw_right_of_margin (s : state) (millis : Z) :
  let cursor := show_cursor hdr s (C.conv aT (C.V C.uint32 millis)) in
  let drawInMsec := show_drawInMsec hdr s cursor in
  let drawInPixels := show_drawInPixels hdr s drawInMsec in
  C.signed xT = false -> C.signed rT = false -> C.signed aT = false ->
  C.in_range rT 2912 ->
  0 <= C.num (C.add (MIN_SEGMENT_DURATION hdr) (C.V aT (maxLoopTime hdr))) ->
  X_FIRSTNOTE hdr <= cursor ->
  0 < _msecPerPixel s -> C.in_range rT (_msecPerPixel s) ->
  drawInMsec <= (cursor - X_FIRSTNOTE hdr) * _msecPerPixel s /\
  0 <= drawInPixels <= cursor - X_FIRSTNOTE hdr /\
  nth_error (show_prologue hdr s cursor) 2
  = Some (fillRect (cursor - drawInPixels) 0 drawInPixels
                   (height (_display s)) COLOR_BG) /\
  X_FIRSTNOTE hdr <= cursor - drawInPixels.
Proof.
  intros cursor d px Ux Ur Ua Rr Hsum Hc Hm Rm.
  apply redraw_right_of_margin_at; try assumption.
  apply show_cursor_in_range.
Qed.

End Controller.

Lemma wipe_width_witness :
  let hdr := uno 40 52 40 in
  let s := _resize hdr power_on 160 128 in
  show_cursor hdr s 1000 = 64 /\ show_wipe hdr s 64 = 8.
Proof.
  intros hdr s. split; [reflexivity|].
  refine (proj1 (proj2 (wipe_width hdr s 1000 _ _ _)));
    vm_compute; repeat split; congruence.
Defined.


Lemma trailing_window_witness :
  let hdr := uno 40 52 40 in
  let s := _resize hdr power_on 160 128 in
  show_drawInMsec hdr s 64 = 100 /\
  show_drawInPixels hdr s (show_drawInMsec hdr s 64) = 5.
Proof.
  intros hdr s.
  pose proof (trailing_window hdr s 1000) as H. cbv zeta in H.
  change (show_cursor hdr s (C.conv (absoluteTime_t hdr) (C.V C.uint32 1000)))
    with 64 in H.
  assert (R : forall t z, C.in_rangeb t z = true -> C.in_range t z)
    by (intros t z; apply in_rangeb_spec).
  destruct H as (E & _ & Q);
    try (apply R; reflexivity); try (vm_compute; congruence).
  split; [exact E|].
  rewrite (proj1 (Q ltac:(apply R; reflexivity))). reflexivity.
Defined.

(** C4, as stated, fails.  With a minimum segment duration of 240 msec and
    the cursor at column 100, [drawInMsec = min(300, 88 * 19) = 300], but
    [drawInPixels] is [(300 mod 256) / 19 = 2], not [300 / 19 = 15]: the
    erased region is 2 pixels wide.  And on a 255 pixel wide screen, 2700
    msec after the left edge, the cursor has wrapped to column 1, left of
    [X_FIRSTNOTE], and [drawInMsec = 100] exceeds
    [(cursor - X_FIRSTNOTE) * msecPerPixel = -121]. *)
Lemma trailing_window_counterexample :
  let hdr := uno 40 52 240 in
  let s := _resize hdr power_on 160 128 in
  let hdr' := uno 40 52 40 in
  let s' := _resize hdr' power_on 255 128 in
  (show_cursor hdr s 1672 = 100 /\
   show_drawInMsec hdr s 100 = 300 /\
   _msecPerPixel s = 19 /\
   show_drawInPixels hdr s 300 = 2 /\
   nth_error (show_prologue hdr s 100) 2
   = Some (fillRect 98 0 2 128 COLOR_BG)) /\
  (show_cursor hdr' s' 2700 = 1 /\
   _msecPerPixel s' = 11 /\
   show_drawInMsec hdr' s' 1 = 100).
Proof. cbv zeta. repeat split; reflexivity. Qed.

Lemma redraw_right_of_margin_witness :
  let hdr := uno 40 52 240 in
  let s := _resize hdr power_on 160 128 in
  show_drawInPixels hdr s (show_drawInMsec hdr s 100) <= 100 - 12.
Proof.
  intros hdr s.
  assert (R : forall t z, C.in_rangeb t z = true -> C.in_range t z)
    by (intros t z; apply in_rangeb_spec).
  refine (proj2 (proj1 (proj2
    (redraw_right_of_margin hdr s 1672 _ _ _ _ _ _ _ _))));
    try reflexivity; try (apply R; reflexivity); vm_compute; congruence.
Defined.

(** ** The note segment renderer *)

Section Notes.

Variable hdr : headers.
Local Abbreviation xT := (xCoordinate_t hdr).
Local Abbreviation rT := (segmentRelTime_t hdr).
Local Abbreviation aT := (absoluteTime_t hdr).

(** The loop test [offset > now - drawInMsec], on integers. *)
Lemma in_window_exact (now drawInMsec offset : Z) :
  0 <= offset -> C.in_range aT offset ->
  0 <= drawInMsec <= now -> C.in_range aT now ->
  C.gt (C.V aT offset) (C.sub (C.V aT now) (C.V aT drawInMsec))
  = (now - drawInMsec <? offset).
Proof.
  intros Ho Ro Hd Rn. unfold C.gt.
  rewrite sub_exact; csimpl; [|lia|assumption].
  rewrite lt_exact; csimpl; try reflexivity; try lia; try range.
Qed.

Lemma show_note_exact (s : state) (t0 offset : Z) (note : segment_t) :
  C.in_range aT offset ->
  0 <= duration note -> C.in_range rT (duration note) ->
  0 <= onset note -> C.in_range rT (onset note) ->
  duration note + onset note <= offset ->
  show_note hdr s t0 offset note
  = (note_bar hdr s t0 (offset - duration note, offset, pitch note),
     offset - duration note - onset note).
Proof.
  intros Ro Hd Rd Hg Rg Hfit. unfold show_note, note_bar.
  rewrite (sub_exact (C.V aT offset)); csimpl; [|lia|assumption].
  rewrite (conv_id aT) by (csimpl; range). csimpl.
  rewrite (sub_exact (C.V aT (offset - duration note)));
    csimpl; [|lia|range].
  rewrite (conv_id aT (C.V _ (offset - duration note - onset note)))
    by (csimpl; range).
  reflexivity.
Qed.

Lemma headPtr_of_app (pre rest : list segment_t) :
  headPtr_of (pre ++ rest) (Z.of_nat (length pre)) = nth_error rest 0.
Proof.
  unfold headPtr_of.
  replace (Z.of_nat (length pre) <? 0) with false
    by (symmetry; apply Z.ltb_ge; lia).
  rewrite Nat2Z.id, nth_error_app2 by lia.
  rewrite Nat.sub_diag. reflexivity.
Qed.

Lemma next_index (k : nat) :
  Z.of_nat k < 255 ->
  C.conv C.uint8 (C.add (C.V C.uint8 (Z.of_nat k)) (C.lit 1))
  = Z.of_nat (S k).
Proof.
  intros Hk. rewrite (add_exact (Z.of_nat k + 1)); csimpl; try lia.
  - rewrite conv_id; csimpl; [lia|].
    unfold C.in_range; cbn; lia.
  - unfold C.in_range; cbn; lia.
Qed.

(** The [while] loop of [show] performs the walk of the specification:
    from index [length pre] on, it paints the bars of [note_walk]. *)
Lemma show_notes_walk (s : state) (now drawInMsec t0 : Z) :
  0 <= drawInMsec <= now -> C.in_range aT now ->
  forall (rest pre : list segment_t) (fuel : nat) (offset : Z),
    Z.of_nat (length (pre ++ rest)) <= 255 ->
    (length rest < fuel)%nat ->
    0 <= offset -> C.in_range aT offset ->
    fits_before hdr offset rest ->
    show_notes hdr fuel s (headPtr_of (pre ++ rest)) now drawInMsec t0
               (Z.of_nat (length pre)) offset
    = Some (flat_map (note_bar hdr s t0)
                     (note_walk (now - drawInMsec) offset rest)).
Proof.
  intros Hd Rn. induction rest as [|note older IH];
    intros pre fuel offset Hlen Hfuel Ho Ro Hfit.
  - destruct fuel as [|fuel]; [cbn in Hfuel; lia|].
    cbn [show_notes]. rewrite headPtr_of_app. reflexivity.
  - destruct fuel as [|fuel]; [cbn in Hfuel; lia|].
    cbn [show_notes]. rewrite headPtr_of_app. cbn [nth_error].
    cbn [fits_before] in Hfit.
    destruct Hfit as (Hdur & Rdur & Hgap & Rgap & Hsum & Hrest).
    rewrite in_window_exact by assumption.
    cbn [note_walk].
    destruct (Z.ltb_spec (now - drawInMsec) offset) as [Hin|Hout].
    + replace (offset <=? now - drawInMsec) with false
        by (symmetry; apply Z.leb_gt; lia).
      rewrite show_note_exact by assumption. cbn [fst snd].
      rewrite length_app in Hlen. cbn [length] in Hlen, Hfuel.
      rewrite next_index by lia.
      replace (pre ++ note :: older) with ((pre ++ [note]) ++ older)
        by (rewrite <- app_assoc; reflexivity).
      replace (S (length pre)) with (length (pre ++ [note]))
        by (rewrite length_app; cbn; lia).
      rewrite IH; try assumption; try lia.
      * cbn [flat_map]. reflexivity.
      * rewrite !length_app. cbn [length]. lia.
      * range.
    + replace (offset <=? now - drawInMsec) with true
        by (symmetry; apply Z.leb_le; lia).
      reflexivity.
Qed.

Local Abbreviation pT := (segmentPitch_t hdr).

(** [show] is its prologue, then the grid, then the notes. *)
Lemma show_commands fuel s millis lastOffset headPtr :
  let now := C.conv aT (C.V C.uint32 millis) in
  let cursor := show_cursor hdr s now in
  show hdr fuel s millis lastOffset headPtr
  = match show_grid hdr fuel s cursor with
    | None => None
    | Some grid =>
        match show_notes hdr fuel s headPtr now
                (show_drawInMsec hdr s cursor) (show_t0 hdr s now) 0
                lastOffset with
        | None => None
        | Some notes => Some (show_prologue hdr s cursor ++ grid ++ notes)
        end
    end.
Proof. reflexivity. Qed.

(** The grid loop returns, given fuel for every pitch of the range. *)
Lemma displayRoll_loop_total (s : state) (xLeft xRight : Z) :
  C.in_range pT (PITCH_MAX hdr + 1) ->
  forall (fuel : nat) (ii : Z),
    0 <= ii -> C.in_range pT ii -> 0 <= PITCH_MAX hdr ->
    (Z.to_nat (PITCH_MAX hdr + 1 - ii) < fuel)%nat ->
    exists cmds, _displayRoll_loop hdr fuel s xLeft xRight ii = Some cmds.
Proof.
  intros RM. induction fuel as [|fuel IH]; intros ii Hii Rii HM Hfuel;
    [lia|].
  cbn [_displayRoll_loop]. unfold C.le.
  rewrite lt_exact; csimpl; try lia; try assumption; try range.
  destruct (Z.ltb_spec (PITCH_MAX hdr) ii) as [Hgt|Hle]; cbn [negb].
  - eexists. reflexivity.
  - rewrite (add_exact (ii + 1)); csimpl; try lia; try range.
    rewrite conv_id by (csimpl; range). csimpl.
    destruct (IH (ii + 1)) as [rest Hrest]; try lia; try range.
    rewrite Hrest. eexists. reflexivity.
Qed.

Lemma show_grid_total fuel s cursor :
  0 <= PITCH_MIN hdr <= PITCH_MAX hdr ->
  C.in_range pT (PITCH_MAX hdr + 1) ->
  (Z.to_nat (PITCH_MAX hdr + 1 - PITCH_MIN hdr) < fuel)%nat ->
  exists grid, show_grid hdr fuel s cursor = Some grid.
Proof.
  intros Hp RM Hfuel. unfold show_grid, _displayRoll.
  apply displayRoll_loop_total; try assumption; try lia.
  apply PITCH_MIN_in_range.
Qed.

Lemma show_notes_stop fuel s headPtr now drawInMsec t0 ii offset :
  0 <= drawInMsec <= now -> C.in_range aT now ->
  0 <= offset -> C.in_range aT offset ->
  (show_notes hdr (S fuel) s headPtr now drawInMsec t0 ii offset = Some []
   <-> headPtr ii = None \/ offset <= now - drawInMsec).
Proof.
  intros Hd Rn Ho Ro. cbn [show_notes].
  destruct (headPtr ii) as [note|]; [|split; auto].
  rewrite in_window_exact by assumption.
  destruct (Z.ltb_spec (now - drawInMsec) offset) as [Hin|Hout].
  - split.
    + destruct (show_notes hdr fuel s headPtr now drawInMsec t0 _ _);
        [|discriminate].
      unfold show_note. cbn [fst]. discriminate.
    + intros [H|H]; [discriminate|lia].
  - split; auto.
Qed.

(** C5.  The note loop stops exactly when the accessor returns none or
    [offset <= now - drawInMsec]; exhaustion ends the loop without an
    error, and with an empty history ([headPtr(0)] is none) the loop returns
    at once and [show] returns its prologue and the grid, and no note
    rectangle.  (The state is [ready], the window does not reach back before
    time 0, and the fuel covers the rows of the grid.) *)
Theorem notes_stop_when_exhausted_or_out_of_window
        fuel s millis lastOffset headPtr :
  let now := C.conv aT (C.V C.uint32 millis) in
  let cursor := show_cursor hdr s now in
  let drawInMsec := show_drawInMsec hdr s cursor in
  ready hdr s ->
  0 <= drawInMsec <= now ->
  0 <= PITCH_MIN hdr <= PITCH_MAX hdr ->
  C.in_range pT (PITCH_MAX hdr + 1) ->
  (Z.to_nat (PITCH_MAX hdr + 1 - PITCH_MIN hdr) < S fuel)%nat ->
  (forall ii offset,
     0 <= offset -> C.in_range aT offset ->
     (show_notes hdr (S fuel) s headPtr now drawInMsec (show_t0 hdr s now)
                 ii offset = Some []
      <-> headPtr ii = None \/ offset <= now - drawInMsec)) /\
  (headPtr 0 = None ->
   show_notes hdr (S fuel) s headPtr now drawInMsec (show_t0 hdr s now)
              0 lastOffset = Some [] /\
   exists grid,
     show_grid hdr (S fuel) s cursor = Some grid /\
     show hdr (S fuel) s millis lastOffset headPtr
     = Some (show_prologue hdr s cursor ++ grid)).
Proof.
  intros now cursor d _ Hd Hp RM Hfuel.
  assert (Rn : C.in_range aT now) by apply wrap_in_range.
  split.
  - intros ii offset Ho Ro. apply show_notes_stop; assumption.
  - intros Hnone.
    assert (E : show_notes hdr (S fuel) s headPtr now d (show_t0 hdr s now)
                           0 lastOffset = Some [])
      by (cbn [show_notes]; rewrite Hnone; reflexivity).
    split; [exact E|].
    destruct (show_grid_total (S fuel) s cursor Hp RM Hfuel) as [grid Hg].
    exists grid. split; [exact Hg|].
    rewrite show_commands. fold now cursor d. rewrite Hg, E.
    rewrite app_nil_r. reflexivity.
Qed.

(** C10.  If [lastOffset <= now - drawInMsec] at the start of a refresh
    tick, [show] paints no note rectangle, whatever the history holds: the
    bound is tested with [offset = lastOffset] before the first segment is
    painted.  (The state is [ready], the window does not reach back before
    time 0, and the fuel covers the rows of the grid.) *)
Theorem no_notes_when_last_offset_is_old fuel s millis lastOffset headPtr :
  let now := C.conv aT (C.V C.uint32 millis) in
  let cursor := show_cursor hdr s now in
  let drawInMsec := show_drawInMsec hdr s cursor in
  ready hdr s ->
  0 <= drawInMsec <= now ->
  0 <= lastOffset -> C.in_range aT lastOffset ->
  lastOffset <= now - drawInMsec ->
  0 <= PITCH_MIN hdr <= PITCH_MAX hdr ->
  C.in_range pT (PITCH_MAX hdr + 1) ->
  (Z.to_nat (PITCH_MAX hdr + 1 - PITCH_MIN hdr) < S fuel)%nat ->
  show_notes hdr (S fuel) s headPtr now drawInMsec (show_t0 hdr s now)
             0 lastOffset = Some [] /\
  exists grid,
    show_grid hdr (S fuel) s cursor = Some grid /\
    show hdr (S fuel) s millis lastOffset headPtr
    = Some (show_prologue hdr s cursor ++ grid).
Proof.
  intros now cursor d _ Hd Ho Ro Hold Hp RM Hfuel.
  assert (Rn : C.in_range aT now) by apply wrap_in_range.
  assert (E : show_notes hdr (S fuel) s headPtr now d (show_t0 hdr s now)
                         0 lastOffset = Some [])
    by (apply show_notes_stop; auto).
  split; [exact E|].
  destruct (show_grid_total (S fuel) s cursor Hp RM Hfuel) as [grid Hg].
  exists grid. split; [exact Hg|].
  rewrite show_commands. fold now cursor d. rewrite Hg, E.
  rewrite app_nil_r. reflexivity.
Qed.

(** C3.  The note loop walks the history newest first with a running
    offset that starts at [lastOffset], takes [onset = offset - duration]
    for each segment and advances with [offset = onset - segment.onset]:
    it paints the bars of [note_walk].  For the history
    [[{pitch 45, duration 200, onset 0}]] with
    [lastOffset = msecStart + 2000] inside the trailing window it paints
    exactly one bar, with onset 1800 msec after [msecStart], from
    [_time2x(onset, t0)] to [_time2x(lastOffset, t0)].  (The history has at
    most 255 segments, the index being a [uint_least8_t], and does not
    reach back before time 0.) *)
Theorem notes_walk_the_history fuel s millis lastOffset history :
  let now := C.conv aT (C.V C.uint32 millis) in
  let t0 := show_t0 hdr s now in
  let drawInMsec := show_drawInMsec hdr s (show_cursor hdr s now) in
  ready hdr s ->
  0 <= drawInMsec <= now ->
  Z.of_nat (length history) <= 255 -> (length history < fuel)%nat ->
  0 <= lastOffset -> C.in_range aT lastOffset ->
  fits_before hdr lastOffset history ->
  show_notes hdr fuel s (headPtr_of history) now drawInMsec t0 0 lastOffset
  = Some (flat_map (note_bar hdr s t0)
                   (note_walk (now - drawInMsec) lastOffset history)) /\
  (history = [ {| pitch := 45; duration := 200; onset := 0 |} ] ->
   lastOffset = _msecStart s + 2000 ->
   now - drawInMsec < lastOffset ->
   let onset' := _msecStart s + 1800 in
   let xLeft := _time2x hdr s onset' t0 in
   let xWidth :=
     C.conv xT (C.sub (C.V xT (_time2x hdr s lastOffset t0)) (C.V xT xLeft)) in
   let yTop :=
     C.conv (yCoordinate_t hdr)
       (C.add (C.V (yCoordinate_t hdr) (_pitch2y hdr s 45))
              (C.div (C.V (yCoordinate_t hdr) (pitch2pitch (_distance s)))
                     (C.lit 2))) in
   let yHeight :=
     C.conv (yCoordinate_t hdr)
            (C.V (yCoordinate_t hdr) (pitch2pitch (_distance s))) in
   note_walk (now - drawInMsec) lastOffset history
   = [ (onset', lastOffset, 45) ] /\
   show_notes hdr fuel s (headPtr_of history) now drawInMsec t0 0 lastOffset
   = Some [ fillRect (C.num (C.add (C.V xT xLeft) (C.V C.uint8 startLen)))
                     yTop
                     (C.num (C.sub (C.V xT xWidth) (C.V C.uint8 startLen)))
                     yHeight COLOR_NOTE;
            fillRect xLeft yTop startLen yHeight COLOR_NOTESTART ]).
Proof.
  intros now t0 d _ Hd Hlen Hfuel Ho Ro Hfit.
  assert (Rn : C.in_range aT now) by apply wrap_in_range.
  assert (W : show_notes hdr fuel s (headPtr_of history) now d t0 0 lastOffset
              = Some (flat_map (note_bar hdr s t0)
                               (note_walk (now - d) lastOffset history))).
  { apply (show_notes_walk s now d t0 Hd Rn history []); assumption. }
  split; [exact W|].
  intros Hh HlastOffset Hin. cbv zeta.
  assert (Ew : note_walk (now - d) lastOffset history
               = [ (_msecStart s + 1800, lastOffset, 45) ]).
  { rewrite Hh. cbn [note_walk duration pitch onset].
    replace (lastOffset <=? now - d) with false
      by (symmetry; apply Z.leb_gt; lia).
    rewrite HlastOffset. do 3 f_equal. lia. }
  split; [exact Ew|].
  rewrite W, Ew. cbn [flat_map note_bar]. rewrite app_nil_r. reflexivity.
Qed.

End Notes.

Lemma notes_stop_witness :
  let hdr := uno 40 52 40 in
  let s := _resize hdr power_on 160 128 in
  show hdr 20 s 1000 1000 (headPtr_of [])
  = Some (show_prologue hdr s 64 ++
          match show_grid hdr 20 s 64 with Some g => g | None => [] end).
Proof.
  intros hdr s.
  assert (R : forall t z, C.in_rangeb t z = true -> C.in_range t z)
    by (intros t z; apply in_rangeb_spec).
  destruct (proj2 (notes_stop_when_exhausted_or_out_of_window
                     hdr 19 s 1000 1000 (headPtr_of [])
                     ltac:(vm_compute; repeat split; congruence)
                     ltac:(vm_compute; split; congruence)
                     ltac:(vm_compute; split; congruence)
                     ltac:(apply R; reflexivity)
                     ltac:(vm_compute; lia))
                  eq_refl) as (_ & grid & Hg & Hshow).
  change (show_cursor hdr s (C.conv (absoluteTime_t hdr)
                                    (C.V C.uint32 1000))) with 64 in Hg, Hshow.
  rewrite Hg. exact Hshow.
Defined.

Lemma no_notes_when_last_offset_is_old_witness :
  let hdr := uno 40 52 40 in
  let s := _resize hdr power_on 160 128 in
  show_notes hdr 20 s (headPtr_of [ {| pitch := 45; duration := 200; onset := 0 |} ])
             1000 100 0 0 900 = Some [].
Proof.
  intros hdr s.
  assert (R : forall t z, C.in_rangeb t z = true -> C.in_range t z)
    by (intros t z; apply in_rangeb_spec).
  refine (proj1 (no_notes_when_last_offset_is_old hdr 19 s 1000 900 _
                   _ _ _ _ _ _ _ _));
    try (apply R; reflexivity); vm_compute; repeat split; try congruence; lia.
Defined.

Lemma notes_walk_the_history_witness :
  let hdr := uno 40 52 40 in
  let s := _resize hdr power_on 160 128 in
  show_notes hdr 20 s (headPtr_of [ {| pitch := 45; duration := 200; onset := 0 |} ])
             2050 100 0 0 2000
  = Some [ fillRect 108 82 9 9 COLOR_NOTE; fillRect 106 82 2 9 COLOR_NOTESTART ].
Proof.
  intros hdr s.
  assert (R : forall t z, C.in_rangeb t z = true -> C.in_range t z)
    by (intros t z; apply in_rangeb_spec).
  refine (proj2 (proj2 (notes_walk_the_history hdr 20 s 2050 2000
                   [ {| pitch := 45; duration := 200; onset := 0 |} ]
                   _ _ _ _ _ _ _) eq_refl eq_refl _));
    try (apply R; reflexivity); vm_compute; try split; try congruence;
    try lia; repeat split; congruence.
Defined.

(** ** The grid renderer on the display surface *)

Section Surface.

Variables W H : Z.
Variable font : Z -> list (Z * Z).

Lemma set_pixel_hits (f : surface) (w : Z * Z * Z) (px py : Z) :
  set_pixel W H f w px py = if hits W H w px py then snd w else f px py.
Proof.
  destruct w as [[x y] c]. unfold set_pixel, hits. cbn [snd].
  destruct ((0 <=? x) && (x <? W) && (0 <=? y) && (y <? H)); cbn [andb].
  - destruct (px =? x); reflexivity.
  - reflexivity.
Qed.

(** A pixel shows the last colour written to it, or what it showed before. *)
Lemma fold_set_pixel (ws : list (Z * Z * Z)) :
  forall (f : surface) (px py : Z),
    fold_left (set_pixel W H) ws f px py
    = match last_write W H ws px py with
      | Some c => c
      | None => f px py
      end.
Proof.
  induction ws as [|w rest IH]; intros f px py; cbn [fold_left last_write].
  - reflexivity.
  - rewrite IH. destruct (last_write W H rest px py); [reflexivity|].
    rewrite set_pixel_hits. destruct (hits W H w px py); reflexivity.
Qed.

(** Painting the same commands again changes no pixel. *)
Lemma paint_twice (cmds : list cmd) (f : surface) (px py : Z) :
  paint W H font cmds (paint W H font cmds f) px py
  = paint W H font cmds f px py.
Proof.
  unfold paint. rewrite !fold_set_pixel.
  destruct (last_write W H _ px py); reflexivity.
Qed.

(** C8.  [_displayRoll(xLeft, xWidth)] is idempotent: called twice with
    the same arguments on a cleared surface, the second call leaves every
    pixel as the first call left it. *)
Theorem displayRoll_idempotent hdr fuel s xLeft xWidth :
  0 <= PITCH_MIN hdr <= PITCH_MAX hdr ->
  C.in_range (segmentPitch_t hdr) (PITCH_MAX hdr + 1) ->
  (Z.to_nat (PITCH_MAX hdr + 1 - PITCH_MIN hdr) < fuel)%nat ->
  exists grid,
    _displayRoll hdr fuel s xLeft xWidth = Some grid /\
    forall px py,
      paint W H font grid (paint W H font grid cleared) px py
      = paint W H font grid cleared px py.
Proof.
  intros Hp RM Hfuel.
  destruct (displayRoll_loop_total hdr s xLeft
              (C.conv (xCoordinate_t hdr)
                 (C.add (C.V (xCoordinate_t hdr) xLeft)
                        (C.V (xCoordinate_t hdr) xWidth)))
              RM fuel (PITCH_MIN hdr))
    as [grid Hg]; try lia; try apply PITCH_MIN_in_range.
  exists grid. split; [exact Hg|].
  intros px py. apply paint_twice.
Qed.

End Surface.

Lemma displayRoll_idempotent_witness :
  let hdr := uno 40 52 40 in
  let s := _resize hdr power_on 160 128 in
  exists grid,
    _displayRoll hdr 20 s 0 160 = Some grid /\
    forall px py,
      paint 160 128 (fun _ => []) grid (paint 160 128 (fun _ => []) grid cleared)
            px py
      = paint 160 128 (fun _ => []) grid cleared px py.
Proof.
  intros hdr s.
  refine (displayRoll_idempotent 160 128 (fun _ => []) hdr 20 s 0 160 _ _ _).
  - vm_compute; split; congruence.
  - apply in_rangeb_spec. reflexivity.
  - vm_compute. lia.
Defined.

(** ** The grid in closed form *)

Lemma In_pitches_from k :
  forall ii p, In p (pitches_from ii k) <-> ii <= p < ii + Z.of_nat k.
Proof.
  induction k as [|k IH]; intros ii p; cbn [pitches_from In].
  - lia.
  - rewrite IH. lia.
Qed.

Lemma length_pitches_from k : forall ii, length (pitches_from ii k) = k.
Proof. induction k; intros; cbn; auto. Qed.

Lemma In_pitch_range hdr p :
  0 <= PITCH_MIN hdr <= PITCH_MAX hdr ->
  (In p (pitch_range hdr) <-> PITCH_MIN hdr <= p <= PITCH_MAX hdr).
Proof.
  intros Hp. unfold pitch_range. rewrite In_pitches_from.
  rewrite Z2Nat.id by lia. lia.
Qed.

Lemma flat_map_singletons {A B} (f : A -> list B) (g : A -> B) (l : list A) :
  (forall a, In a l -> f a = [g a]) -> flat_map f l = map g l.
Proof.
  induction l as [|a l IH]; intros H; cbn [flat_map map]; [reflexivity|].
  rewrite (H a) by (left; reflexivity).
  rewrite IH by (intros; apply H; right; assumption). reflexivity.
Qed.

Lemma flat_map_eq_on {A B} (f g : A -> list B) (l : list A) :
  (forall a, In a l -> f a = g a) -> flat_map f l = flat_map g l.
Proof.
  induction l as [|a l IH]; intros H; cbn [flat_map]; [reflexivity|].
  rewrite (H a) by (left; reflexivity).
  rewrite IH by (intros; apply H; right; assumption). reflexivity.
Qed.

Lemma eq_exact a b :
  0 <= C.num a -> 0 <= C.num b ->
  C.in_range (C.ty a) (C.num a) -> C.in_range (C.ty b) (C.num b) ->
  C.eq a b = (C.num a =? C.num b).
Proof.
  intros Ha Hb Ra Rb. unfold C.eq, C.conv.
  rewrite !wrap_id; auto using in_range_usual_l, in_range_usual_r.
Qed.

Lemma rem_exact a b :
  0 <= C.num a -> 0 < C.num b ->
  C.in_range (C.ty a) (C.num a) -> C.in_range (C.ty b) (C.num b) ->
  C.rem a b = C.V (C.usual (C.ty a) (C.ty b)) (C.num a mod C.num b).
Proof.
  intros Ha Hb Ra Rb. unfold C.rem.
  pose proof (Z.mod_pos_bound (C.num a) (C.num b) Hb) as Hm.
  assert (Hb' : C.in_range (C.usual (C.ty a) (C.ty b)) (C.num b))
    by (apply in_range_usual_r; [lia | exact Rb]).
  rewrite arith_exact; rewrite ?Z.rem_mod_nonneg by lia; try assumption.
  - reflexivity.
  - apply in_range_usual_l; [lia | exact Ra].
  - eapply in_range_le; [|exact Hb']. lia.
Qed.

Lemma unsigned_nonneg t z : C.signed t = false -> C.in_range t z -> 0 <= z.
Proof. unfold C.in_range, C.min_val. intros ->. lia. Qed.

Section Grid.

Variable hdr : headers.
Local Abbreviation xT := (xCoordinate_t hdr).
Local Abbreviation yT := (yCoordinate_t hdr).
Local Abbreviation pT := (segmentPitch_t hdr).

(** The [for] loop visits the pitches from [ii] to [PITCH_MAX], in order. *)
Lemma displayRoll_loop_rows (s : state) (xLeft xRight : Z) :
  0 <= PITCH_MAX hdr -> C.in_range pT (PITCH_MAX hdr + 1) ->
  forall (k fuel : nat) (ii : Z),
    0 <= ii -> ii + Z.of_nat k = PITCH_MAX hdr + 1 ->
    (k < fuel)%nat ->
    _displayRoll_loop hdr fuel s xLeft xRight ii
    = Some (flat_map (_displayRoll_row hdr s xLeft xRight) (pitches_from ii k)).
Proof.
  intros HM RM. induction k as [|k IH]; intros fuel ii Hii Hk Hfuel;
    (destruct fuel as [|fuel]; [lia|]);
    cbn [_displayRoll_loop pitches_from flat_map];
    unfold C.le; rewrite lt_exact; csimpl; try lia; try range.
  - replace (PITCH_MAX hdr <? ii) with true by (symmetry; apply Z.ltb_lt; lia).
    reflexivity.
  - replace (PITCH_MAX hdr <? ii) with false by (symmetry; apply Z.ltb_ge; lia).
    cbn [negb].
    rewrite (add_exact (ii + 1)); csimpl; try lia; try range.
    rewrite conv_id by (csimpl; range). csimpl.
    rewrite IH by lia. reflexivity.
Qed.

Lemma pitch_class (ii : Z) :
  0 <= ii -> C.in_range pT ii ->
  C.num (C.rem (C.V pT ii) (C.lit 12)) = ii mod 12.
Proof.
  intros Hii Rii.
  rewrite rem_exact; csimpl; try reflexivity; try lia; try assumption; range.
Qed.

(** A row of a redraw that does not start at column 0: one line. *)
Lemma displayRoll_row_partial (s : state) (xLeft xWidth ii : Z) :
  0 < xLeft -> 0 <= xWidth -> C.in_range xT (xLeft + xWidth) ->
  0 <= ii -> C.in_range pT ii ->
  _displayRoll_row hdr s xLeft
    (C.conv xT (C.add (C.V xT xLeft) (C.V xT xWidth))) ii
  = [ drawFastHLine xLeft (_pitch2y hdr s ii) xWidth (roll_color hdr ii) ].
Proof.
  intros Hx Hw Rx Hii Rii. unfold _displayRoll_row.
  rewrite pitch_class by assumption.
  rewrite (add_exact (xLeft + xWidth) (C.V xT xLeft) (C.V xT xWidth));
    csimpl; try lia; try range.
  rewrite (conv_id xT (C.V _ (xLeft + xWidth))) by (csimpl; range). csimpl.
  rewrite eq_exact; csimpl; try lia; try range.
  replace (xLeft =? 0) with false by (symmetry; apply Z.eqb_neq; lia).
  rewrite sub_exact; csimpl; [|lia|range].
  replace (xLeft + xWidth - xLeft) with xWidth by lia.
  unfold roll_color. reflexivity.
Qed.

Lemma displayRoll_lines (fuel : nat) (s : state) (xLeft xWidth : Z) :
  0 <= PITCH_MIN hdr <= PITCH_MAX hdr ->
  C.in_range pT (PITCH_MAX hdr + 1) ->
  (Z.to_nat (PITCH_MAX hdr + 1 - PITCH_MIN hdr) < fuel)%nat ->
  0 < xLeft -> 0 <= xWidth -> C.in_range xT (xLeft + xWidth) ->
  _displayRoll hdr fuel s xLeft xWidth
  = Some (map (fun p => drawFastHLine xLeft (_pitch2y hdr s p) xWidth
                                      (roll_color hdr p))
              (pitch_range hdr)).
Proof.
  intros Hp RM Hfuel Hx Hw Rx. unfold _displayRoll.
  rewrite (displayRoll_loop_rows s xLeft _ ltac:(lia) RM
             (Z.to_nat (PITCH_MAX hdr - PITCH_MIN hdr + 1)));
    try lia.
  f_equal. fold (pitch_range hdr). apply flat_map_singletons.
  intros p Hpin. apply In_pitch_range in Hpin; [|assumption].
  apply displayRoll_row_partial; try assumption; try lia. range.
Qed.

(** X3.  A redraw of the grid that does not start at column 0
    ([_displayRoll(xLeft, xWidth)] with [xLeft > 0], as [show] calls it
    behind the cursor) draws one horizontal line per pitch and nothing else:
    for each pitch from [PITCH_MIN] to [PITCH_MAX], in rising order, a line
    from [xLeft], [xWidth] long, at height [_pitch2y(pitch)], dark gray for
    a C, gray for a G, light gray otherwise; [PITCH_MAX - PITCH_MIN + 1]
    lines in all.  ([xLeft + xWidth] is representable in [xCoordinate_t].) *)
Theorem displayRoll_partial (fuel : nat) (s : state) (xLeft xWidth : Z) :
  0 <= PITCH_MIN hdr <= PITCH_MAX hdr ->
  C.in_range pT (PITCH_MAX hdr + 1) ->
  (Z.to_nat (PITCH_MAX hdr + 1 - PITCH_MIN hdr) < fuel)%nat ->
  0 < xLeft -> 0 <= xWidth -> C.in_range xT (xLeft + xWidth) ->
  _displayRoll hdr fuel s xLeft xWidth
  = Some (map (fun p => drawFastHLine xLeft (_pitch2y hdr s p) xWidth
                                      (roll_color hdr p))
              (pitch_range hdr)) /\
  Z.of_nat (length (pitch_range hdr)) = PITCH_MAX hdr - PITCH_MIN hdr + 1 /\
  (forall p, In p (pitch_range hdr) <-> PITCH_MIN hdr <= p <= PITCH_MAX hdr).
Proof.
  intros Hp RM Hfuel Hx Hw Rx.
  split; [apply displayRoll_lines; assumption|]. split.
  - unfold pitch_range. rewrite length_pitches_from. lia.
  - intros p. apply In_pitch_range. assumption.
Qed.

Lemma CHAR_HEIGHT_eq : CHAR_HEIGHT hdr = 8.
Proof. unfold CHAR_HEIGHT. apply wrap_id. csimpl. range. Qed.

Lemma pitch2y_in_range (s : state) (p : Z) : C.in_range yT (_pitch2y hdr s p).
Proof. unfold _pitch2y. apply wrap_in_range. Qed.

(** A row of a redraw from column 0: the note name of a C or a G, then the
    line, which starts right of the names. *)
Lemma displayRoll_row_full (s : state) (xWidth ii : Z) :
  0 <= xWidth -> C.in_range xT xWidth ->
  0 <= ii <= 127 -> 4 <= _pitch2y hdr s ii ->
  _displayRoll_row hdr s 0
    (C.conv xT (C.add (C.V xT 0) (C.V xT xWidth))) ii
  = roll_labels hdr ii (_pitch2y hdr s ii)
    ++ [ drawFastHLine (X_FIRSTNOTE hdr) (_pitch2y hdr s ii) xWidth
                       (roll_color hdr ii) ].
Proof.
  intros Hw Rw Hii Hy. unfold _displayRoll_row.
  pose proof (pitch2y_in_range s ii) as Ry.
  set (y := _pitch2y hdr s ii) in *.
  rewrite pitch_class by (try lia; range).
  rewrite (add_exact xWidth (C.V xT 0) (C.V xT xWidth));
    csimpl; try lia; try range.
  rewrite (conv_id xT (C.V _ (0 + xWidth))) by (csimpl; range). csimpl.
  rewrite eq_exact; csimpl; try lia; try range.
  cbn [Z.eqb].
  rewrite (sub_exact (C.V xT (0 + xWidth))); csimpl; [|lia|range].
  replace (0 + xWidth - 0) with xWidth by lia.
  fold (roll_color hdr ii). f_equal.
  unfold roll_labels.
  destruct ((ii mod 12 =? noteNr_C hdr) || (ii mod 12 =? noteNr_G hdr));
    [|reflexivity].
  assert (Ho : 0 <= ii / 12 <= 10).
  { split; [apply Z.div_pos; lia|].
    assert (ii / 12 < 11) by (apply Z.div_lt_upper_bound; lia). lia. }
  rewrite CHAR_WIDTH_eq, CHAR_HEIGHT_eq.
  rewrite (div_exact (C.V pT ii)); csimpl; try lia; try range.
  rewrite (conv_id (octaveNr_t hdr)) by (csimpl; range). csimpl.
  rewrite (add_exact 58 (C.lit 48)); csimpl; try lia; try range.
  rewrite (conv_id C.uint8) by (csimpl; range). csimpl.
  rewrite (div_exact (C.V yT 8)); csimpl; try lia; try range.
  change (8 / 2) with 4.
  rewrite (sub_exact (C.V yT y)); csimpl; [|lia|assumption].
  rewrite (add_exact y); csimpl; try lia; try range.
  rewrite (conv_id yT) by (csimpl; range). csimpl.
  replace (y - 4 + 1) with (y - 3) by lia.
  reflexivity.
Qed.

Lemma displayRoll_full (fuel : nat) (s : state) (xWidth : Z) :
  0 <= PITCH_MIN hdr <= PITCH_MAX hdr -> PITCH_MAX hdr <= 127 ->
  C.in_range pT (PITCH_MAX hdr + 1) ->
  (Z.to_nat (PITCH_MAX hdr + 1 - PITCH_MIN hdr) < fuel)%nat ->
  0 <= xWidth -> C.in_range xT xWidth ->
  (forall p, PITCH_MIN hdr <= p <= PITCH_MAX hdr -> 4 <= _pitch2y hdr s p) ->
  _displayRoll hdr fuel s 0 xWidth
  = Some (flat_map
            (fun p => roll_labels hdr p (_pitch2y hdr s p)
                      ++ [ drawFastHLine (X_FIRSTNOTE hdr) (_pitch2y hdr s p)
                                         xWidth (roll_color hdr p) ])
            (pitch_range hdr)).
Proof.
  intros Hp HM RM Hfuel Hw Rw Hy.
  unfold _displayRoll.
  rewrite (displayRoll_loop_rows s 0 _ ltac:(lia) RM
             (Z.to_nat (PITCH_MAX hdr - PITCH_MIN hdr + 1))); try lia.
  f_equal. fold (pitch_range hdr). apply flat_map_eq_on.
  intros p Hpin. apply In_pitch_range in Hpin; [|assumption].
  apply displayRoll_row_full; try assumption; try lia. apply Hy. lia.
Qed.

(** X4.  [PianoRoll::clear] fills the screen with the background colour,
    then draws every row of the grid, from [PITCH_MIN] up to [PITCH_MAX]:
    for a C or a G the letter at column 0 and the octave digit
    ['0' + pitch / 12] at column [CHAR_WIDTH], both 3 pixels above the row;
    then the line of the row, which starts at [X_FIRSTNOTE] and is
    [_display.width] long.  It sets [_msecStart] to [millis()] and leaves
    the rest of the state as it was.  (Midi pitches, at most 127; every row
    at least 4 pixels below the top.) *)
Theorem clear_redraws (fuel : nat) (s : state) (millis : Z) :
  0 <= PITCH_MIN hdr <= PITCH_MAX hdr -> PITCH_MAX hdr <= 127 ->
  C.in_range pT (PITCH_MAX hdr + 1) ->
  (Z.to_nat (PITCH_MAX hdr + 1 - PITCH_MIN hdr) < fuel)%nat ->
  0 <= width (_display s) -> C.in_range xT (width (_display s)) ->
  (forall p, PITCH_MIN hdr <= p <= PITCH_MAX hdr -> 4 <= _pitch2y hdr s p) ->
  exists s',
    clear hdr fuel s millis
    = Some (fillScreen COLOR_BG
              :: flat_map
                   (fun p => roll_labels hdr p (_pitch2y hdr s p)
                             ++ [ drawFastHLine (X_FIRSTNOTE hdr)
                                    (_pitch2y hdr s p) (width (_display s))
                                    (roll_color hdr p) ])
                   (pitch_range hdr),
            s') /\
    _msecStart s' = C.conv (absoluteTime_t hdr) (C.V C.uint32 millis) /\
    _display s' = _display s /\ _distance s' = _distance s /\
    _msecPerPixel s' = _msecPerPixel s /\ _msecOnScreen s' = _msecOnScreen s.
Proof.
  intros Hp HM RM Hfuel Hw Rw Hy. unfold clear.
  rewrite displayRoll_full by assumption.
  eexists. split; [reflexivity|]. cbn. repeat split; reflexivity.
Qed.

Lemma displayRoll_loop_hangs (s : state) (xLeft xRight : Z) :
  C.signed pT = false -> PITCH_MAX hdr = C.max_val pT ->
  forall (fuel : nat) (ii : Z),
    C.in_range pT ii ->
    _displayRoll_loop hdr fuel s xLeft xRight ii = None.
Proof.
  intros Up HM. induction fuel as [|fuel IH]; intros ii Rii; [reflexivity|].
  pose proof (unsigned_nonneg _ _ Up Rii) as Hii.
  pose proof (PITCH_MAX_in_range hdr) as RM.
  pose proof (unsigned_nonneg _ _ Up RM) as HM0.
  cbn [_displayRoll_loop]. unfold C.le.
  rewrite lt_exact; csimpl; try lia; try assumption.
  replace (PITCH_MAX hdr <? ii) with false
    by (symmetry; apply Z.ltb_ge; unfold C.in_range in Rii; lia).
  cbn [negb]. rewrite IH; [reflexivity|apply wrap_in_range].
Qed.

(** X5.  If [segmentPitch_t] is unsigned and [PITCH_MAX] is its largest
    value, the loop condition [ii <= PITCH_MAX] of [_displayRoll] never
    fails, [ii++] wrapping around to 0: the grid renderer does not return,
    whatever the fuel, and neither do [show], [clear] and [begin], which
    call it. *)
Theorem grid_hangs_at_type_max (fuel : nat) (s : state)
        (w h millis lastOffset : Z) (headPtr : Z -> option segment_t) :
  C.signed pT = false -> PITCH_MAX hdr = C.max_val pT ->
  (forall xLeft xWidth, _displayRoll hdr fuel s xLeft xWidth = None) /\
  show hdr fuel s millis lastOffset headPtr = None /\
  clear hdr fuel s millis = None /\
  begin hdr fuel s w h millis = None.
Proof.
  intros Up HM.
  assert (G : forall s xLeft xWidth, _displayRoll hdr fuel s xLeft xWidth = None).
  { intros s0 xLeft xWidth. unfold _displayRoll.
    apply displayRoll_loop_hangs; try assumption. apply PITCH_MIN_in_range. }
  split; [apply G|]. split; [|split].
  - unfold show. rewrite G. reflexivity.
  - unfold clear. rewrite G. reflexivity.
  - unfold begin, clear. rewrite G. reflexivity.
Qed.

End Grid.

Lemma displayRoll_partial_witness :
  let hdr := uno 40 52 40 in
  let s := _resize hdr power_on 160 128 in
  _displayRoll hdr 14 s 50 2
  = Some (map (fun p => drawFastHLine 50 (_pitch2y hdr s p) 2 (roll_color hdr p))
              (pitch_range hdr)).
Proof.
  intros hdr s.
  refine (proj1 (displayRoll_partial hdr 14 s 50 2 _ _ _ _ _ _));
    vm_compute; try lia; repeat split; congruence.
Defined.

Lemma clear_redraws_witness :
  let hdr := uno 40 52 40 in
  let s := _resize hdr power_on 160 128 in
  exists s',
    clear hdr 14 s 5000
    = Some (fillScreen COLOR_BG
              :: flat_map
                   (fun p => roll_labels hdr p (_pitch2y hdr s p)
                             ++ [ drawFastHLine 12 (_pitch2y hdr s p) 160
                                                (roll_color hdr p) ])
                   (pitch_range hdr),
            s') /\
    _msecStart s' = 5000.
Proof.
  intros hdr s.
  refine (match clear_redraws hdr 14 s 5000 _ _ _ _ _ _ _ with
          | ex_intro _ s' (conj E (conj Ems _)) => ex_intro _ s' (conj E Ems)
          end);
    try (vm_compute; try lia; repeat split; congruence).
  intros p Hp. change (40 <= p <= 52) in Hp.
  assert (Hc : p = 40 \/ p = 41 \/ p = 42 \/ p = 43 \/ p = 44 \/ p = 45 \/
               p = 46 \/ p = 47 \/ p = 48 \/ p = 49 \/ p = 50 \/ p = 51 \/
               p = 52) by lia.
  repeat (destruct Hc as [->|Hc]); try subst p; vm_compute; congruence.
Defined.

Lemma grid_hangs_at_type_max_witness :
  clear (uno 40 255 40) 1000 power_on 0 = None.
Proof.
  refine (proj1 (proj2 (proj2
    (grid_hangs_at_type_max (uno 40 255 40) 1000 power_on 0 0 0 0
       (fun _ => None) _ _))));
    reflexivity.
Defined.

(** ** The rows after [_resize] *)

Section Rows.

Variable hdr : headers.
Local Abbreviation yT := (yCoordinate_t hdr).
Local Abbreviation pT := (segmentPitch_t hdr).

(** X6.  After [_resize(width, height)] with at least one pixel per row
    ([nrOfPos <= height]), the rows of the grid are equally spaced and a
    higher pitch is drawn higher on the screen: for
    [PITCH_MIN <= p < q <= PITCH_MAX],
    [_pitch2y(p) - _pitch2y(q) = (q - p) * pitch2pitch] with
    [pitch2pitch >= 1], and all rows lie on the screen,
    [pitch2pitch <= _pitch2y(q) < _pitch2y(p) <= height]. *)
Theorem pitch_rows (s : state) (w h p q : Z) :
  let nrOfPos := PITCH_MAX hdr - PITCH_MIN hdr + 1 in
  let s' := _resize hdr s w h in
  0 <= PITCH_MIN hdr -> C.in_range pT nrOfPos ->
  nrOfPos <= h -> C.in_range C.int h -> C.in_range yT h ->
  resize_sWidth hdr w <> 0 ->
  PITCH_MIN hdr <= p -> p < q -> q <= PITCH_MAX hdr ->
  1 <= pitch2pitch (_distance s') /\
  _pitch2y hdr s' p - _pitch2y hdr s' q = (q - p) * pitch2pitch (_distance s') /\
  _pitch2y hdr s' q < _pitch2y hdr s' p /\
  pitch2pitch (_distance s') <= _pitch2y hdr s' q /\
  _pitch2y hdr s' p <= h.
Proof.
  intros n s' Hmin Rn Hh Rhi Rhy _ Hp Hpq Hq.
  assert (Hn : 0 < n) by (unfold n; lia).
  destruct (resize_distance hdr s w h) as [E1 E2]; try assumption; try lia.
  fold n s' in E1, E2.
  pose proof (pitch2y_resize hdr s w h p) as Fp.
  pose proof (pitch2y_resize hdr s w h q) as Fq.
  cbv zeta in Fp, Fq. fold n s' in Fp, Fq.
  rewrite Fp, Fq by (assumption || lia). rewrite E1, E2.
  assert (H1 : 1 <= h / n) by (apply Z.div_le_lower_bound; lia).
  assert (Hnq : n * (h / n) <= h) by (apply Z.mul_div_le; lia).
  assert (Hb : 0 <= (h - n * (h / n)) / 2 <= h - n * (h / n))
    by (apply quot_nonneg_bounds; lia).
  assert (Hpm : 0 <= (p - PITCH_MIN hdr) * (h / n)) by nia.
  assert (Hqm : (q - PITCH_MIN hdr) * (h / n) <= (n - 1) * (h / n))
    by (apply Z.mul_le_mono_nonneg_r; [lia | unfold n; lia]).
  split; [lia|]. split; [ring|]. split; [nia|]. split; lia.
Qed.

(** X7.  [_resize] centres the rows vertically: the margin below the
    lowest row, [height - _pitch2y(PITCH_MIN)], is [bottom2loPitch]; with
    the margin above the band of the highest row,
    [_pitch2y(PITCH_MAX) - pitch2pitch], it makes up the
    [height mod nrOfPos] pixels that the rows leave over, and the top
    margin is the bottom one or one pixel more. *)
Theorem rows_centred (s : state) (w h : Z) :
  let nrOfPos := PITCH_MAX hdr - PITCH_MIN hdr + 1 in
  let s' := _resize hdr s w h in
  let bottom := h - _pitch2y hdr s' (PITCH_MIN hdr) in
  let top := _pitch2y hdr s' (PITCH_MAX hdr) - pitch2pitch (_distance s') in
  0 <= PITCH_MIN hdr <= PITCH_MAX hdr -> C.in_range pT nrOfPos ->
  0 <= h -> C.in_range C.int h -> C.in_range yT h ->
  resize_sWidth hdr w <> 0 ->
  bottom = bottom2loPitch (_distance s') /\
  bottom + top = h mod nrOfPos /\
  bottom <= top <= bottom + 1.
Proof.
  intros n s' bottom top Hp Rn Hh Rhi Rhy _.
  assert (Hn : 0 < n) by (unfold n; lia).
  destruct (resize_distance hdr s w h) as [E1 E2]; try assumption; try lia.
  fold n s' in E1, E2.
  pose proof (pitch2y_resize hdr s w h (PITCH_MIN hdr)) as Fp.
  pose proof (pitch2y_resize hdr s w h (PITCH_MAX hdr)) as Fq.
  cbv zeta in Fp, Fq. fold n s' in Fp, Fq.
  unfold bottom, top. rewrite Fp, Fq by (assumption || lia). rewrite E1, E2.
  pose proof (Z.div_mod h n ltac:(lia)) as Hdm.
  pose proof (Z.mod_pos_bound h n Hn) as Hmb.
  replace (h - n * (h / n)) with (h mod n) by lia.
  pose proof (Z.div_mod (h mod n) 2 ltac:(lia)) as Hd2.
  pose proof (Z.mod_pos_bound (h mod n) 2 ltac:(lia)) as Hm2.
  replace (PITCH_MAX hdr - PITCH_MIN hdr) with (n - 1) by (unfold n; lia).
  split; [ring|]. split; nia.
Qed.

End Rows.

Lemma pitch_rows_witness :
  let hdr := uno 40 52 40 in
  let s' := _resize hdr power_on 160 128 in
  _pitch2y hdr s' 40 - _pitch2y hdr s' 52 = (52 - 40) * pitch2pitch (_distance s')
  /\ _pitch2y hdr s' 52 < _pitch2y hdr s' 40.
Proof.
  intros hdr s'.
  refine (match pitch_rows hdr power_on 160 128 40 52 _ _ _ _ _ _ _ _ _ with
          | conj _ (conj E (conj L _)) => conj E L
          end);
    vm_compute; try lia; repeat split; congruence.
Defined.

Lemma rows_centred_witness :
  let hdr := uno 40 52 40 in
  let s' := _resize hdr power_on 160 128 in
  128 - _pitch2y hdr s' 40 + (_pitch2y hdr s' 52 - pitch2pitch (_distance s'))
  = 128 mod (52 - 40 + 1).
Proof.
  intros hdr s'.
  refine (proj1 (proj2 (rows_centred hdr power_on 160 128 _ _ _ _ _ _)));
    vm_compute; try lia; repeat split; congruence.
Defined.

(** ** The time axis on a refresh tick *)

Section Sweep.

Variable hdr : headers.
Local Abbreviation xT := (xCoordinate_t hdr).
Local Abbreviation yT := (yCoordinate_t hdr).
Local Abbreviation rT := (segmentRelTime_t hdr).
Local Abbreviation aT := (absoluteTime_t hdr).

Lemma show_t0_exact (s : state) (now : Z) :
  ready hdr s -> 0 <= _msecStart s <= now -> C.in_range aT now ->
  show_t0 hdr s now
  = (now - _msecStart s) / _msecOnScreen s * _msecOnScreen s.
Proof.
  intros (Hon & Ron & _ & _) Hms Rn. unfold show_t0.
  pose proof (quot_nonneg_bounds (now - _msecStart s) (_msecOnScreen s)
                ltac:(lia) Hon) as Hq.
  assert (Hm : (now - _msecStart s) / _msecOnScreen s * _msecOnScreen s
               <= now - _msecStart s)
    by (rewrite Z.mul_comm; apply Z.mul_div_le; lia).
  rewrite (sub_exact (C.V aT now)); csimpl; [|lia|assumption].
  rewrite div_exact; csimpl; try lia; try assumption; try range.
  rewrite (conv_id aT (C.V (C.usual (C.usual aT aT) rT) _))
    by (csimpl; range).
  csimpl.
  rewrite (mul_exact now); csimpl; try lia; try range.
  apply conv_id. csimpl. range.
Qed.

(** X8.  On a refresh tick, [elapsed = now - _msecStart] milliseconds
    after the last [clear], the cursor is at column
    [X_FIRSTNOTE + (elapsed mod _msecOnScreen) / _msecPerPixel]: it sweeps
    from [X_FIRSTNOTE] to the right and wraps around to [X_FIRSTNOTE] every
    [_msecOnScreen] milliseconds, never beyond column
    [X_FIRSTNOTE + (_msecOnScreen - 1) / _msecPerPixel].  (That column is
    representable in [xCoordinate_t].) *)
Theorem cursor_sweep (s : state) (millis : Z) :
  let now := C.conv aT (C.V C.uint32 millis) in
  let elapsed := now - _msecStart s in
  ready hdr s -> 0 <= _msecStart s <= now ->
  C.in_range xT (X_FIRSTNOTE hdr + (_msecOnScreen s - 1) / _msecPerPixel s) ->
  show_cursor hdr s now
  = X_FIRSTNOTE hdr + (elapsed mod _msecOnScreen s) / _msecPerPixel s /\
  X_FIRSTNOTE hdr <= show_cursor hdr s now
    <= X_FIRSTNOTE hdr + (_msecOnScreen s - 1) / _msecPerPixel s.
Proof.
  intros now elapsed Hr Hms Rx.
  assert (Rn : C.in_range aT now) by apply wrap_in_range.
  pose proof Hr as (Hon & Ron & Hpp & Rpp).
  pose proof (show_t0_exact s now Hr Hms Rn) as Et0.
  pose proof (Z.div_mod elapsed (_msecOnScreen s) ltac:(lia)) as Hdm.
  pose proof (Z.mod_pos_bound elapsed (_msecOnScreen s) Hon) as Hmb.
  assert (Hq : 0 <= elapsed / _msecOnScreen s)
    by (apply Z.div_pos; unfold elapsed; lia).
  assert (Ht0 : show_t0 hdr s now = elapsed - elapsed mod _msecOnScreen s)
    by (rewrite Et0; fold elapsed; lia).
  assert (Hmono : (elapsed mod _msecOnScreen s) / _msecPerPixel s
                  <= (_msecOnScreen s - 1) / _msecPerPixel s)
    by (apply Z.div_le_mono; lia).
  assert (Hpos : 0 <= (elapsed mod _msecOnScreen s) / _msecPerPixel s)
    by (apply Z.div_pos; lia).
  assert (E : show_cursor hdr s now
              = X_FIRSTNOTE hdr
                + (elapsed mod _msecOnScreen s) / _msecPerPixel s).
  { unfold show_cursor.
    destruct (Z.eq_dec (elapsed mod _msecOnScreen s) 0) as [Hz|Hnz].
    - rewrite time2x_left; try assumption; try (unfold elapsed in *; lia).
      + rewrite Hz. cbn. lia.
      + rewrite Ht0. apply (in_range_le aT _ now); [|assumption].
        unfold elapsed in *; nia.
    - rewrite time2x_right; try assumption; try (unfold elapsed in *; lia).
      + f_equal. f_equal. unfold elapsed in *. lia.
      + rewrite Ht0. apply (in_range_le aT _ now); [|assumption].
        unfold elapsed in *; lia.
      + replace (now - _msecStart s - show_t0 hdr s now)
          with (elapsed mod _msecOnScreen s) by (unfold elapsed in *; lia).
        pose proof (X_FIRSTNOTE_eq hdr). range. }
  split; [exact E|]. rewrite E. lia.
Qed.

Lemma time2x_in_range (s : state) (t t0 : Z) : C.in_range xT (_time2x hdr s t t0).
Proof. unfold _time2x. apply wrap_in_range. Qed.

Lemma time2x_le (s : state) (t t' t0 : Z) :
  0 <= _msecStart s <= t -> t <= t' -> 0 <= t0 ->
  C.in_range aT t' -> C.in_range aT t0 ->
  0 < _msecPerPixel s -> C.in_range rT (_msecPerPixel s) ->
  (t0 < t' - _msecStart s ->
   C.in_range xT
     (X_FIRSTNOTE hdr + (t' - _msecStart s - t0) / _msecPerPixel s)) ->
  X_FIRSTNOTE hdr <= _time2x hdr s t t0 <= _time2x hdr s t' t0.
Proof.
  intros Hms Htt Ht0 Rt' Rt0 Hpp Rpp Rx.
  assert (Rt : C.in_range aT t) by range.
  destruct (Z_le_gt_dec (t' - _msecStart s) t0) as [Hle'|Hgt'].
  - rewrite (time2x_left hdr s t'), (time2x_left hdr s t);
      try assumption; lia.
  - specialize (Rx ltac:(lia)).
    rewrite (time2x_right hdr s t'); try assumption; try lia.
    pose proof (quot_nonneg_bounds (t' - _msecStart s - t0) (_msecPerPixel s)
                  ltac:(lia) Hpp) as Hq'.
    destruct (Z_le_gt_dec (t - _msecStart s) t0) as [Hle|Hgt].
    + rewrite (time2x_left hdr s t); try assumption; lia.
    + assert (Hmono : (t - _msecStart s - t0) / _msecPerPixel s
                      <= (t' - _msecStart s - t0) / _msecPerPixel s)
        by (apply Z.div_le_mono; lia).
      pose proof (quot_nonneg_bounds (t - _msecStart s - t0) (_msecPerPixel s)
                    ltac:(lia) Hpp) as Hq.
      pose proof (X_FIRSTNOTE_eq hdr) as HX.
      rewrite (time2x_right hdr s t); try assumption; try lia. range.
Qed.

(** X9.  [_time2x] is monotone in the note time: for
    [_msecStart <= t <= t'] and the same [t0],
    [X_FIRSTNOTE <= _time2x(t, t0) <= _time2x(t', t0)]; and a time that is
    at least [_msecPerPixel] later, from the left edge of the screen on
    ([t - _msecStart >= t0]), lands at least one column further right.
    ([_msecPerPixel > 0], and the column of [t'] is representable in
    [xCoordinate_t].) *)
Theorem time2x_monotone (s : state) (t t' t0 : Z) :
  0 <= _msecStart s <= t -> t <= t' -> 0 <= t0 ->
  C.in_range aT t' -> C.in_range aT t0 ->
  0 < _msecPerPixel s -> C.in_range rT (_msecPerPixel s) ->
  (t0 < t' - _msecStart s ->
   C.in_range xT
     (X_FIRSTNOTE hdr + (t' - _msecStart s - t0) / _msecPerPixel s)) ->
  X_FIRSTNOTE hdr <= _time2x hdr s t t0 <= _time2x hdr s t' t0 /\
  (t0 <= t - _msecStart s -> _msecPerPixel s <= t' - t ->
   _time2x hdr s t t0 < _time2x hdr s t' t0).
Proof.
  intros Hms Htt Ht0 Rt' Rt0 Hpp Rpp Rx.
  split; [apply time2x_le; assumption|].
  intros Hedge Hstep.
  assert (Rt : C.in_range aT t) by range.
  specialize (Rx ltac:(lia)).
  pose proof (X_FIRSTNOTE_eq hdr) as HX.
  set (d := t - _msecStart s - t0).
  assert (Hd : 0 <= d) by (unfold d; lia).
  assert (Hq : 0 <= d / _msecPerPixel s) by (apply Z.div_pos; lia).
  assert (Hstep' : d / _msecPerPixel s + 1
                   <= (t' - _msecStart s - t0) / _msecPerPixel s).
  { replace (d / _msecPerPixel s + 1) with ((d + 1 * _msecPerPixel s) / _msecPerPixel s)
      by (rewrite Z.div_add by lia; reflexivity).
    apply Z.div_le_mono; unfold d; lia. }
  rewrite (time2x_right hdr s t'); try assumption; try lia.
  destruct (Z.eq_dec d 0) as [Hz|Hnz].
  - rewrite (time2x_left hdr s t); try assumption; unfold d in *; lia.
  - rewrite (time2x_right hdr s t); try assumption; try (unfold d in *; lia).
    fold d. range.
Qed.

(** X10.  The two rectangles of a note.  For a note that ends at [offset]
    and lasts [duration], with [xLeft = _time2x(offset - duration, t0)] and
    [xRight = _time2x(offset, t0)]: [X_FIRSTNOTE <= xLeft <= xRight]; the
    next [offset] is [offset - duration - onset]; and when the bar is at
    least [startLen = 2] pixels wide, [show] fills
    [[xLeft + 2, xRight)] in the note colour and then [[xLeft, xLeft + 2)]
    in the note start colour, both from [yTop] and [yHeight] high.  (Times
    since [_msecStart], without wrap-around.) *)
Theorem note_bar_extent (s : state) (t0 offset : Z) (note : segment_t) :
  let onset' := offset - duration note in
  let xLeft := _time2x hdr s onset' t0 in
  let xRight := _time2x hdr s offset t0 in
  let yTop :=
    C.conv yT (C.add (C.V yT (_pitch2y hdr s (pitch note)))
                     (C.div (C.V yT (pitch2pitch (_distance s))) (C.lit 2))) in
  let yHeight := C.conv yT (C.V yT (pitch2pitch (_distance s))) in
  0 <= duration note -> C.in_range rT (duration note) ->
  0 <= onset note -> C.in_range rT (onset note) ->
  0 <= _msecStart s <= onset' -> onset note <= onset' ->
  0 <= t0 -> C.in_range aT t0 -> C.in_range aT offset ->
  0 < _msecPerPixel s -> C.in_range rT (_msecPerPixel s) ->
  (t0 < offset - _msecStart s ->
   C.in_range xT
     (X_FIRSTNOTE hdr + (offset - _msecStart s - t0) / _msecPerPixel s)) ->
  X_FIRSTNOTE hdr <= xLeft <= xRight /\
  snd (show_note hdr s t0 offset note) = onset' - onset note /\
  (2 <= xRight - xLeft ->
   fst (show_note hdr s t0 offset note)
   = [ fillRect (xLeft + 2) yTop (xRight - xLeft - 2) yHeight COLOR_NOTE;
       fillRect xLeft yTop 2 yHeight COLOR_NOTESTART ]).
Proof.
  intros on xL xR yTop yH Hd Rd Hg Rg Hms Hgap Ht0 Rt0 Ro Hpp Rpp Rx.
  assert (M : X_FIRSTNOTE hdr <= xL <= xR)
    by (apply time2x_le; try assumption; unfold on in *; lia).
  pose proof (X_FIRSTNOTE_eq hdr) as HX.
  pose proof (time2x_in_range s offset t0) as RxR. fold xR in RxR.
  rewrite show_note_exact by (try assumption; unfold on in *; lia).
  fold on. cbn [fst snd]. split; [exact M|]. split; [reflexivity|].
  intros Hwide. unfold note_bar. fold xL xR yTop yH.
  rewrite (sub_exact (C.V xT xR)); csimpl; [|lia|assumption].
  rewrite (conv_id xT) by (csimpl; range). csimpl.
  rewrite (add_exact xR (C.V xT xL)); csimpl; try (unfold startLen; lia);
    try range.
  rewrite (sub_exact (C.V xT (xR - xL))); csimpl;
    [|unfold startLen; lia|range].
  reflexivity.
Qed.

End Sweep.

Lemma cursor_sweep_witness :
  let hdr := uno 40 52 40 in
  let s := _resize hdr power_on 160 128 in
  show_cursor hdr s 5000 = 12 + (5000 mod 2912) / 19.
Proof.
  intros hdr s.
  refine (proj1 (cursor_sweep hdr s 5000 _ _ _));
    vm_compute; repeat split; congruence.
Defined.

Lemma time2x_monotone_witness :
  let hdr := uno 40 52 40 in
  let s := _resize hdr power_on 160 128 in
  _time2x hdr s 1000 0 < _time2x hdr s 2000 0.
Proof.
  intros hdr s.
  refine (proj2 (time2x_monotone hdr s 1000 2000 0 _ _ _ _ _ _ _ _) _ _);
    vm_compute; first [lia | intuition congruence].
Defined.

Lemma note_bar_extent_witness :
  let hdr := uno 40 52 40 in
  let s := _resize hdr power_on 160 128 in
  fst (show_note hdr s 0 2000 {| pitch := 45; duration := 200; onset := 0 |})
  = [ fillRect 108 82 9 9 COLOR_NOTE; fillRect 106 82 2 9 COLOR_NOTESTART ].
Proof.
  intros hdr s.
  refine (proj2 (proj2
    (note_bar_extent hdr s 0 2000
       {| pitch := 45; duration := 200; onset := 0 |}
       _ _ _ _ _ _ _ _ _ _ _ _)) _);
    vm_compute; first [lia | intuition congruence].
Defined.

(** ** The entry points *)

Section Entry.

Variable hdr : headers.
Local Abbreviation xT := (xCoordinate_t hdr).
Local Abbreviation yT := (yCoordinate_t hdr).
Local Abbreviation pT := (segmentPitch_t hdr).
Local Abbreviation rT := (segmentRelTime_t hdr).
Local Abbreviation aT := (absoluteTime_t hdr).

Lemma note_walk_ordered (bound : Z) :
  forall (history : list segment_t) (offset : Z),
    fits_before hdr offset history ->
    bars_ordered bound offset (note_walk bound offset history) /\
    (length (note_walk bound offset history) <= length history)%nat.
Proof.
  induction history as [|note older IH]; intros offset Hfit;
    cbn [note_walk bars_ordered length]; [split; [exact I|lia]|].
  cbn [fits_before] in Hfit.
  destruct Hfit as (Hd & _ & Hg & _ & Hsum & Hrest).
  destruct (Z.leb_spec offset bound) as [Hout|Hin];
    cbn [bars_ordered length]; [split; [exact I|lia]|].
  destruct (IH (offset - duration note - onset note) Hrest) as [Ho Hl].
  split; [|lia].
  split; [lia|]. split; [lia|].
  revert Ho.
  generalize (note_walk bound (offset - duration note - onset note) older).
  intros bars. destruct bars as [|[[on off] p] rest]; cbn [bars_ordered];
    [trivial|]. intros (H1 & H2 & H3). repeat split; try assumption; lia.
Qed.

(** X11.  The bars painted on one refresh tick are those of the walk of
    the history, newest first; they all end inside the trailing window,
    [now - drawInMsec < offset <= lastOffset], and do not overlap in time:
    each bar ends no later than the onset of the bar painted before it.
    There is at most one bar per segment of the history.  (Same conditions
    as for the walk of the history: at most 255 segments, none reaching
    back before time 0.) *)
Theorem painted_bars_ordered fuel s millis lastOffset history :
  let now := C.conv aT (C.V C.uint32 millis) in
  let t0 := show_t0 hdr s now in
  let drawInMsec := show_drawInMsec hdr s (show_cursor hdr s now) in
  let bars := note_walk (now - drawInMsec) lastOffset history in
  0 <= drawInMsec <= now ->
  Z.of_nat (length history) <= 255 -> (length history < fuel)%nat ->
  0 <= lastOffset -> C.in_range aT lastOffset ->
  fits_before hdr lastOffset history ->
  show_notes hdr fuel s (headPtr_of history) now drawInMsec t0 0 lastOffset
  = Some (flat_map (note_bar hdr s t0) bars) /\
  bars_ordered (now - drawInMsec) lastOffset bars /\
  (length bars <= length history)%nat.
Proof.
  intros now t0 d bars Hd Hlen Hfuel Ho Ro Hfit.
  assert (Rn : C.in_range aT now) by apply wrap_in_range.
  split; [|apply note_walk_ordered; assumption].
  apply (show_notes_walk hdr s now d t0 Hd Rn history []); assumption.
Qed.

Lemma show_notes_returns (s : state) (headPtr : Z -> option segment_t)
      (now drawInMsec t0 : Z) (k : nat) :
  headPtr (Z.of_nat k) = None -> Z.of_nat k <= 255 ->
  forall (j i fuel : nat) (offset : Z),
    (i + j = k)%nat -> (j < fuel)%nat ->
    exists notes,
      show_notes hdr fuel s headPtr now drawInMsec t0 (Z.of_nat i) offset
      = Some notes /\
      (length notes <= 2 * j)%nat.
Proof.
  intros Hk Hk255. induction j as [|j IH]; intros i fuel offset Hij Hfuel;
    (destruct fuel as [|fuel]; [lia|]); cbn [show_notes].
  - replace i with k by lia. rewrite Hk.
    exists []. split; [reflexivity|cbn; lia].
  - destruct (headPtr (Z.of_nat i)) as [note|];
      [|exists []; split; [reflexivity|cbn; lia]].
    destruct (C.gt _ _); [|exists []; split; [reflexivity|cbn; lia]].
    rewrite next_index by lia.
    destruct (IH (S i) fuel (snd (show_note hdr s t0 offset note))
                ltac:(lia) ltac:(lia)) as (rest & E & L).
    rewrite E. eexists. split; [reflexivity|].
    rewrite length_app. cbn [show_note fst length]. lia.
Qed.

(** X12.  [show] returns whenever the segment buffer runs out within the
    range of the loop index: if [headPtr(k)] is null for some [k <= 255],
    the grid redraw returns its lines, the [while] loop ends after at most
    [k] notes, whatever the segments hold and wherever the window lies,
    having issued two [fillRect] calls per note, and [show] has drawn the
    wipe region, the cursor line and the erased trailing region, then that
    grid, then those at most [2 * k] note rectangles.  (Fuel for the rows
    of the grid and for [k + 1] tests of the loop condition.) *)
Theorem show_returns (fuel : nat) (s : state) (millis lastOffset : Z)
        (headPtr : Z -> option segment_t) (k : nat) :
  let now := C.conv aT (C.V C.uint32 millis) in
  let cursor := show_cursor hdr s now in
  let drawInMsec := show_drawInMsec hdr s cursor in
  headPtr (Z.of_nat k) = None -> Z.of_nat k <= 255 ->
  0 <= PITCH_MIN hdr <= PITCH_MAX hdr ->
  C.in_range pT (PITCH_MAX hdr + 1) ->
  (Z.to_nat (PITCH_MAX hdr + 1 - PITCH_MIN hdr) < fuel)%nat ->
  (k < fuel)%nat ->
  exists grid notes,
    show_grid hdr fuel s cursor = Some grid /\
    show_notes hdr fuel s headPtr now drawInMsec (show_t0 hdr s now) 0
               lastOffset = Some notes /\
    show hdr fuel s millis lastOffset headPtr
    = Some (show_prologue hdr s cursor ++ grid ++ notes) /\
    (length notes <= 2 * k)%nat.
Proof.
  intros now cursor d Hk Hk255 Hp RM Hfuel Hkf.
  destruct (show_grid_total hdr fuel s cursor Hp RM Hfuel) as [grid Hg].
  destruct (show_notes_returns s headPtr now d (show_t0 hdr s now) k Hk Hk255
              k 0%nat fuel lastOffset ltac:(lia) Hkf) as (notes & E & L).
  cbn [Z.of_nat] in E.
  exists grid, notes. split; [exact Hg|]. split; [exact E|].
  split; [|exact L].
  rewrite show_commands. fold now cursor d.
  rewrite Hg, E. reflexivity.
Qed.

Lemma clear_state (fuel : nat) (s s' : state) (millis : Z) (cmds : list cmd) :
  clear hdr fuel s millis = Some (cmds, s') ->
  _msecStart s' = C.conv aT (C.V C.uint32 millis) /\
  _display s' = _display s /\ _distance s' = _distance s /\
  _msecPerPixel s' = _msecPerPixel s /\ _msecOnScreen s' = _msecOnScreen s.
Proof.
  unfold clear. destruct (_displayRoll _ _ _ _ _); [|discriminate].
  intros E. injection E as _ <-. cbn. repeat split; reflexivity.
Qed.

(** X13.  A [show] in the same millisecond as a [clear] (unsigned
    coordinate and time types): the cursor is at [X_FIRSTNOTE], the
    trailing redraw window is empty ([drawInMsec = 0], [drawInPixels = 0]),
    and with [lastOffset <= now] no note is painted.  [show] issues the wipe
    rectangle at [X_FIRSTNOTE], the cursor line at [X_FIRSTNOTE + 1], an
    erase rectangle of width 0, and one grid line of length 0 per pitch. *)
Theorem show_right_after_clear (fuel fuel' : nat) (s s' : state)
        (millis lastOffset : Z) (headPtr : Z -> option segment_t)
        (cmds : list cmd) :
  let now := C.conv aT (C.V C.uint32 millis) in
  C.signed xT = false -> C.signed rT = false -> C.signed aT = false ->
  C.in_range rT 2912 ->
  0 <= C.num (C.add (MIN_SEGMENT_DURATION hdr) (C.V aT (maxLoopTime hdr))) ->
  ready hdr s ->
  clear hdr fuel s millis = Some (cmds, s') ->
  0 <= PITCH_MIN hdr <= PITCH_MAX hdr ->
  C.in_range pT (PITCH_MAX hdr + 1) ->
  (Z.to_nat (PITCH_MAX hdr + 1 - PITCH_MIN hdr) < fuel')%nat ->
  0 <= lastOffset <= now ->
  show_cursor hdr s' now = X_FIRSTNOTE hdr /\
  show hdr fuel' s' millis lastOffset headPtr
  = Some ([ fillRect (X_FIRSTNOTE hdr) 0
                     (show_wipe hdr s' (X_FIRSTNOTE hdr))
                     (height (_display s')) COLOR_BG;
            drawFastVLine (X_FIRSTNOTE hdr + 1) 0 (height (_display s'))
                          COLOR_CURSOR;
            fillRect (X_FIRSTNOTE hdr) 0 0 (height (_display s')) COLOR_BG ]
          ++ map (fun p => drawFastHLine (X_FIRSTNOTE hdr) (_pitch2y hdr s' p)
                                         0 (roll_color hdr p))
                 (pitch_range hdr)).
Proof.
  intros now Ux Ur Ua Rr HA (Hon & Ron & Hpp & Rpp) Hc Hp RM Hfuel Hlast.
  destruct (clear_state _ _ _ _ _ Hc) as (Ems & _ & _ & Epp & Eon).
  fold now in Ems.
  assert (Rn : C.in_range aT now) by apply wrap_in_range.
  pose proof (unsigned_nonneg _ _ Ua Rn) as Hn.
  pose proof (X_FIRSTNOTE_eq hdr) as HX.
  assert (Hr' : ready hdr s')
    by (unfold ready; rewrite Epp, Eon; auto).
  assert (Et0 : show_t0 hdr s' now = 0).
  { rewrite show_t0_exact; try assumption; [|rewrite Ems; lia].
    rewrite Ems, Z.sub_diag. reflexivity. }
  assert (Ec : show_cursor hdr s' now = X_FIRSTNOTE hdr).
  { unfold show_cursor. rewrite Et0.
    apply time2x_left; try assumption; try rewrite Ems; try lia. range. }
  assert (RX : C.in_range xT (X_FIRSTNOTE hdr)) by (rewrite HX; range).
  assert (Ed : show_drawInMsec hdr s' (X_FIRSTNOTE hdr) = 0).
  { pose proof (show_drawInMsec_bounds hdr s' (X_FIRSTNOTE hdr)
                  Ux Ur Ua Rr HA ltac:(lia) RX) as B.
    rewrite Epp in B. specialize (B ltac:(lia) Rpp). lia. }
  assert (Ep : show_drawInPixels hdr s' 0 = 0).
  { rewrite show_drawInPixels_quot; rewrite ?Epp; try assumption; try lia;
      [reflexivity|range]. }
  split; [exact Ec|].
  destruct fuel' as [|f]; [lia|].
  rewrite show_commands. fold now. rewrite Ec.
  unfold show_grid, show_prologue. rewrite Ed, Ep.
  rewrite (sub_exact (C.V xT (X_FIRSTNOTE hdr)) (C.V xT 0));
    csimpl; [|lia|assumption].
  rewrite (conv_id xT) by (csimpl; rewrite Z.sub_0_r; assumption). csimpl.
  rewrite Z.sub_0_r.
  rewrite displayRoll_lines; try assumption; try lia;
    [|rewrite Z.add_0_r; assumption].
  assert (En : show_notes hdr (S f) s' headPtr now 0 (show_t0 hdr s' now) 0
                         lastOffset = Some []).
  { apply show_notes_stop; try assumption; try lia; try range. }
  rewrite En, app_nil_r.
  rewrite (add_exact 13 (C.V xT (X_FIRSTNOTE hdr))); csimpl; try lia; try range.
  reflexivity.
Qed.

Lemma resize_width (s : state) (w h : Z) :
  C.in_range C.int w -> C.in_range xT w ->
  width (_display (_resize hdr s w h)) = w.
Proof.
  intros Rwi Rwx. unfold _resize; cbn [_display width].
  unfold C.conv; cbn [C.num]. rewrite (wrap_id C.int w) by assumption.
  apply wrap_id. assumption.
Qed.

(** X14.  [PianoRoll::begin] on a display of [w] by [h] pixels with at
    least 4 pixels per pitch row: it returns, having filled the screen with
    the background colour and drawn the full grid (note names and lines,
    placed by the geometry that [_resize] has just computed); afterwards
    the renderer is ready for [show] ([_msecOnScreen] and [_msecPerPixel]
    positive), [_msecStart] is [millis()], and [_display] holds [w] and [h].
    (Midi pitches; [w] and [h] representable in [int] and in the coordinate
    types; [0 < w - X_FIRSTNOTE <= 2912].) *)
Theorem begin_draws (fuel : nat) (s : state) (w h millis : Z) :
  let nrOfPos := PITCH_MAX hdr - PITCH_MIN hdr + 1 in
  let s1 := _resize hdr s w h in
  0 <= PITCH_MIN hdr <= PITCH_MAX hdr -> PITCH_MAX hdr <= 127 ->
  C.in_range pT (PITCH_MAX hdr + 1) ->
  (Z.to_nat (PITCH_MAX hdr + 1 - PITCH_MIN hdr) < fuel)%nat ->
  4 * nrOfPos <= h -> C.in_range C.int h -> C.in_range yT h ->
  0 <= w -> C.in_range C.int w -> C.in_range xT w ->
  0 < resize_sWidth hdr w <= 2912 -> C.in_range rT 2912 ->
  exists s',
    begin hdr fuel s w h millis
    = Some (fillScreen COLOR_BG
              :: flat_map
                   (fun p => roll_labels hdr p (_pitch2y hdr s1 p)
                             ++ [ drawFastHLine (X_FIRSTNOTE hdr)
                                    (_pitch2y hdr s1 p) w (roll_color hdr p) ])
                   (pitch_range hdr),
            s') /\
    ready hdr s' /\
    _msecStart s' = C.conv aT (C.V C.uint32 millis) /\
    width (_display s') = w /\ height (_display s') = h /\
    _distance s' = _distance s1.
Proof.
  intros n s1 Hp HM RM Hfuel Hh Rhi Rhy Hw Rwi Rwx Hsw Rr.
  assert (Rn : C.in_range pT n) by (unfold n; range).
  assert (Hn : 0 < n) by (unfold n; lia).
  assert (Ew : width (_display s1) = w) by (apply resize_width; assumption).
  assert (Eh : height (_display s1) = h) by (apply resize_height; assumption).
  assert (Hy : forall p, PITCH_MIN hdr <= p <= PITCH_MAX hdr ->
                         4 <= _pitch2y hdr s1 p).
  { intros p Hpp.
    destruct (resize_distance hdr s w h) as [E1 E2]; try assumption; try lia.
    fold n s1 in E1, E2.
    pose proof (pitch2y_resize hdr s w h p) as Fp.
    cbv zeta in Fp. fold n s1 in Fp.
    rewrite Fp by (assumption || lia). rewrite E1, E2.
    assert (H4 : 4 <= h / n) by (apply Z.div_le_lower_bound; lia).
    assert (Hnq : n * (h / n) <= h) by (apply Z.mul_div_le; lia).
    assert (Hb : 0 <= (h - n * (h / n)) / 2 <= h - n * (h / n))
      by (apply quot_nonneg_bounds; lia).
    assert (Hqm : (p - PITCH_MIN hdr) * (h / n) <= (n - 1) * (h / n))
      by (apply Z.mul_le_mono_nonneg_r; [lia | unfold n; lia]).
    lia. }
  destruct (resize_msec_fields hdr s w h ltac:(lia) Rr) as [Eon Epp].
  fold s1 in Eon, Epp.
  assert (Hq : 0 < 2912 / resize_sWidth hdr w)
    by (apply Z.div_str_pos; lia).
  assert (Rq : C.in_range rT (2912 / resize_sWidth hdr w)).
  { pose proof (quot_nonneg_bounds 2912 (resize_sWidth hdr w)
                  ltac:(lia) ltac:(lia)). range. }
  unfold begin, clear. fold s1.
  rewrite displayRoll_full; try assumption;
    [|rewrite Ew; exact Hw|rewrite Ew; exact Rwx].
  rewrite Ew. eexists. split; [reflexivity|].
  unfold ready. cbn [_msecOnScreen _msecPerPixel _msecStart _display _distance].
  rewrite Eon, Epp, Ew, Eh.
  split; [split; [lia|]; split; [exact Rr|]; split; [exact Hq|exact Rq]|].
  repeat split; reflexivity.
Qed.

End Entry.

Lemma painted_bars_ordered_witness :
  let hdr := uno 40 52 40 in
  let s := _resize hdr power_on 160 128 in
  let history :=
    [ {| pitch := 45; duration := 30; onset := 10 |};
      {| pitch := 47; duration := 40; onset := 0 |};
      {| pitch := 48; duration := 50; onset := 0 |};
      {| pitch := 50; duration := 100; onset := 0 |} ] in
  let bars := [ (1970, 2000, 45); (1920, 1960, 47); (1870, 1920, 48) ] in
  show_notes hdr 5 s (headPtr_of history) 2000 100 0 0 2000
  = Some (flat_map (note_bar hdr s 0) bars) /\
  bars_ordered 1900 2000 bars /\
  (length bars <= length history)%nat.
Proof.
  intros hdr s history bars.
  refine (painted_bars_ordered hdr 5 s 2000 2000 history _ _ _ _ _ _);
    vm_compute; first [lia | intuition congruence].
Defined.

Lemma show_returns_witness :
  let hdr := uno 40 52 40 in
  let s := _resize hdr power_on 160 128 in
  let headPtr :=
    headPtr_of [ {| pitch := 45; duration := 30; onset := 10 |};
                 {| pitch := 47; duration := 40; onset := 0 |} ] in
  exists grid notes,
    show_grid hdr 14 s (show_cursor hdr s 2000) = Some grid /\
    show_notes hdr 14 s headPtr 2000
               (show_drawInMsec hdr s (show_cursor hdr s 2000))
               (show_t0 hdr s 2000) 0 2000 = Some notes /\
    show hdr 14 s 2000 2000 headPtr
    = Some (show_prologue hdr s (show_cursor hdr s 2000) ++ grid ++ notes) /\
    (length notes <= 2 * 2)%nat.
Proof.
  intros hdr s headPtr.
  refine (show_returns hdr 14 s 2000 2000 headPtr 2 _ _ _ _ _ _);
    vm_compute; first [lia | intuition congruence].
Defined.

Lemma show_right_after_clear_witness :
  let hdr := uno 40 52 40 in
  let s := _resize hdr power_on 160 128 in
  exists cmds s',
    clear hdr 14 s 5000 = Some (cmds, s') /\
    show_cursor hdr s' 5000 = 12.
Proof.
  intros hdr s.
  destruct (clear hdr 14 s 5000) as [[cmds s']|] eqn:Hc;
    [|vm_compute in Hc; discriminate Hc].
  exists cmds, s'. split; [reflexivity|].
  refine (proj1 (show_right_after_clear hdr 14 14 s s' 5000 5000
                   (fun _ => None) cmds _ _ _ _ _ _ Hc _ _ _ _));
    vm_compute; try lia; repeat split; congruence.
Defined.

Lemma begin_draws_witness :
  let hdr := uno 40 52 40 in
  exists s',
    begin hdr 14 power_on 160 128 5000
    = Some (fillScreen COLOR_BG
              :: flat_map
                   (fun p =>
                      roll_labels hdr p
                        (_pitch2y hdr (_resize hdr power_on 160 128) p)
                      ++ [ drawFastHLine 12
                             (_pitch2y hdr (_resize hdr power_on 160 128) p)
                             160 (roll_color hdr p) ])
                   (pitch_range hdr),
            s') /\
    ready hdr s'.
Proof.
  intros hdr.
  refine (match begin_draws hdr 14 power_on 160 128 5000
                  _ _ _ _ _ _ _ _ _ _ _ _ with
          | ex_intro _ s' (conj E (conj R _)) => ex_intro _ s' (conj E R)
          end);
    vm_compute; try lia; repeat split; congruence.
Defined.
